(** * chrono::utility::to_duration

    A shallow embedding of [src/chrono/utility/to_duration.hpp] and the
    properties of its scanner.

    The header holds one algorithm, the iterator-range overload (1), and six
    adapters that hand it the [cbegin()]/[cend()] of a [std::basic_string].

    Modelling choices, all visible in the definitions below:
    - a character (template parameter [Char]) is its integer code, a [Z];
    - an iterator is an index into the underlying storage [mem]; [*it] is
      [deref mem it], and reading outside the storage is undefined behaviour;
    - [Duration::rep] is a 64-bit signed integer (the representation of the
      six [std::chrono] typedefs); signed overflow is undefined behaviour and
      is reported as such, never wrapped;
    - [throw std::invalid_argument] is the outcome [Throw];
    - the outer [while] runs on fuel; [to_duration_range] supplies
      [S (length mem)] and [loop_terminates] shows that this is always
      enough. *)

From Stdlib Require Import String Ascii ZArith List Bool Lia.
Import ListNotations.
Open Scope Z_scope.

(** ** Outcomes of a C++ computation *)

Inductive ub : Type :=
| SignedOverflow   (* arithmetic on [rep] left the 64-bit range *)
| OutOfRange.      (* an iterator was dereferenced outside the storage *)

Inductive result (A : Type) : Type :=
| Return (a : A)
| Throw                      (* std::invalid_argument("invalid input string") *)
| Undefined (u : ub).

Arguments Return {A} a.
Arguments Throw {A}.
Arguments Undefined {A} u.

Definition bind {A B : Type} (m : result A) (k : A -> result B) : result B :=
  match m with
  | Return a => k a
  | Throw => Throw
  | Undefined u => Undefined u
  end.

Notation "x <- m ;; k" := (bind m (fun x => k))
  (at level 61, m at next level, right associativity).
Notation "' p <- m ;; k" := (bind m (fun x => match x with p => k end))
  (at level 61, p pattern, m at next level, right associativity).

(** ** Characters *)

Abbreviation Char := Z (only parsing).

Definition ch (a : ascii) : Char := Z.of_N (N_of_ascii a).

(** The text of a string literal, without its terminator. *)
Definition chars (s : string) : list Char := map ch (list_ascii_of_string s).

(** [*it >= '0' && *it <= '9'] *)
Definition is_digit (c : Char) : bool := (ch "0" <=? c) && (c <=? ch "9").

(** ** [Duration::rep] *)

Abbreviation rep := Z (only parsing).
Definition rep_min : Z := - 2 ^ 63.
Definition rep_max : Z := 2 ^ 63 - 1.

Definition in_rep (z : Z) : bool := (rep_min <=? z) && (z <=? rep_max).

Definition checked (z : Z) : result rep :=
  if in_rep z then Return z else Undefined SignedOverflow.

Definition add_rep (a b : rep) : result rep := checked (a + b).
Definition sub_rep (a b : rep) : result rep := checked (a - b).
Definition mul_rep (a b : rep) : result rep := checked (a * b).
Definition neg_rep (a : rep) : result rep := checked (- a).

(** ** The six [std::chrono] duration types and [duration_cast] *)

Inductive Duration : Type :=
| nanoseconds | microseconds | milliseconds | seconds | minutes | hours.

(** [Duration::period], a [std::ratio] of seconds as (num, den). *)
Definition period (d : Duration) : Z * Z :=
  match d with
  | nanoseconds  => (1, 1000000000)
  | microseconds => (1, 1000000)
  | milliseconds => (1, 1000)
  | seconds      => (1, 1)
  | minutes      => (60, 1)
  | hours        => (3600, 1)
  end.

(** [std::ratio_divide<R1, R2>], reduced to lowest terms. *)
Definition ratio_divide (r1 r2 : Z * Z) : Z * Z :=
  let num := fst r1 * snd r2 in
  let den := snd r1 * fst r2 in
  let g := Z.gcd num den in
  (num / g, den / g).

(** [std::chrono::duration_cast<To>(From(n))] as [time.duration.cast] defines
    it: with CF = ratio_divide<From::period, To::period>, the count is kept,
    multiplied by CF::num, divided by CF::den, or both; the division is the
    C++ one, truncating toward zero. *)
Definition duration_cast (to from : Duration) (n : rep) : result rep :=
  let cf := ratio_divide (period from) (period to) in
  let num := fst cf in
  let den := snd cf in
  if (num =? 1) && (den =? 1) then Return n
  else if den =? 1 then mul_rep n num
  else if num =? 1 then Return (Z.quot n den)
  else m <- mul_rep n num ;; Return (Z.quot m den).

(** ** The scanner (overload 1, lines 84-149) *)

(** [*it] *)
Definition deref (mem : list Char) (it : nat) : result Char :=
  match nth_error mem it with
  | Some c => Return c
  | None => Undefined OutOfRange
  end.

(** Lines 93-100, the inner [while (it != last)]: [rest] is the storage from
    the cursor on, so that its head is [*it]. *)
Fixpoint digits_loop (rest : list Char) (it last : nat) (n : rep)
  : result (nat * rep) :=
  if (it =? last)%nat then Return (it, n)
  else
    match rest with
    | [] => Undefined OutOfRange
    | c :: rest' =>
        if is_digit c then
          m <- mul_rep n 10 ;;
          n' <- sub_rep m (c - ch "0") ;;
          digits_loop rest' (S it) last n'
        else Return (it, n)
    end.

(** Lines 90-101: the optional sign, the digit run accumulated negatively,
    and [n = neg ? n : -n]. Returns the cursor and the signed raw count. *)
Definition read_count (mem : list Char) (last it : nat) : result (nat * rep) :=
  c <- deref mem it ;;
  let neg := c =? ch "-" in
  let it := if (c =? ch "+") || (c =? ch "-") then S it else it in
  '(it, n) <- digits_loop (skipn it mem) it last 0 ;;
  n <- (if neg then Return n else neg_rep n) ;;
  Return (it, n).

(** [tmp += std::chrono::duration_cast<duration_type>(From(n))] *)
Definition accumulate (to from : Duration) (n tmp : rep) : result rep :=
  v <- duration_cast to from n ;;
  add_rep tmp v.

(** Lines 102-146: the [switch] on [*it] and the closing [it++]. Each branch
    yields the cursor it leaves behind ([++it] in the two-character cases,
    [it--] after a minute), and line 146 advances it once more. *)
Definition dispatch (to : Duration) (mem : list Char) (it : nat) (n tmp : rep)
  : result (nat * rep) :=
  c <- deref mem it ;;
  '(it, tmp) <-
    (if c =? ch "n" then
       c2 <- deref mem (S it) ;;
       if c2 =? ch "s" then
         tmp <- accumulate to nanoseconds n tmp ;; Return (S it, tmp)
       else Throw
     else if c =? ch "u" then
       c2 <- deref mem (S it) ;;
       if c2 =? ch "s" then
         tmp <- accumulate to microseconds n tmp ;; Return (S it, tmp)
       else Throw
     else if c =? ch "m" then
       c2 <- deref mem (S it) ;;
       if c2 =? ch "s" then
         tmp <- accumulate to milliseconds n tmp ;; Return (S it, tmp)
       else
         tmp <- accumulate to minutes n tmp ;; Return (Nat.pred (S it), tmp)
     else if c =? ch "s" then
       tmp <- accumulate to seconds n tmp ;; Return (it, tmp)
     else if c =? ch "h" then
       tmp <- accumulate to hours n tmp ;; Return (it, tmp)
     else Throw) ;;
  Return (S it, tmp).

(** One pass through the body of the outer loop, lines 90-146. *)
Definition iteration (to : Duration) (mem : list Char) (last it : nat)
  (tmp : rep) : result (nat * rep) :=
  '(it, n) <- read_count mem last it ;;
  dispatch to mem it n tmp.

(** Lines 89-148, the outer [while (it != last)]; [None] is fuel exhausted. *)
Fixpoint loop (fuel : nat) (to : Duration) (mem : list Char) (last it : nat)
  (tmp : rep) : option (result rep) :=
  if (it =? last)%nat then Some (Return tmp)
  else
    match fuel with
    | O => None
    | S fuel' =>
        match iteration to mem last it tmp with
        | Return (it', tmp') => loop fuel' to mem last it' tmp'
        | Throw => Some Throw
        | Undefined u => Some (Undefined u)
        end
    end.

(** Overload (1): [to_duration<It, Duration>(first, last)] over the storage
    [mem] the two iterators point into. *)
Definition to_duration_range (to : Duration) (mem : list Char)
  (first last : nat) : option (result rep) :=
  loop (S (length mem)) to mem last first 0.

(** Overloads (2)-(4): [to_duration<Duration>(str)] calls overload (1) on
    [str.cbegin()] and [str.cend()]. A [std::basic_string] stores [Char()]
    behind its last character, so that is what [*str.cend()] reads. *)
Definition to_duration (to : Duration) (str : list Char) : option (result rep) :=
  to_duration_range to (str ++ [0]) 0 (length str).

(** Overloads (5)-(7): a [const Char*] is copied into a [std::basic_string],
    which keeps the characters before the first terminator. *)
Fixpoint c_str (p : list Char) : list Char :=
  match p with
  | [] => []
  | c :: p' => if c =? 0 then [] else c :: c_str p'
  end.

Definition to_duration_cstr (to : Duration) (p : list Char)
  : option (result rep) :=
  to_duration to (c_str p).

(** ** The documented grammar and its reading *)

(** The header documents the input as [([+-]?\d+(ns|us|ms|s|m|h))*]. *)
Inductive sign : Type := NoSign | Plus | Minus.

Definition sign_text (sg : sign) : list Char :=
  match sg with
  | NoSign => []
  | Plus => [ch "+"]
  | Minus => [ch "-"]
  end.

Definition suffix (u : Duration) : list Char :=
  match u with
  | nanoseconds  => chars "ns"
  | microseconds => chars "us"
  | milliseconds => chars "ms"
  | seconds      => chars "s"
  | minutes      => chars "m"
  | hours        => chars "h"
  end.

(** The value of a decimal literal, by base-10 positional accumulation. *)
Definition decimal (ds : list Char) : Z :=
  fold_left (fun m c => m * 10 + (c - ch "0")) ds 0.

(** Standard sign-magnitude reading of [[+-]?\d+]: accumulate the unsigned
    magnitude, then negate it if a leading minus was seen. *)
Definition sign_magnitude (sg : sign) (ds : list Char) : Z :=
  match sg with
  | Minus => - decimal ds
  | _ => decimal ds
  end.

(** What lines 93-100 compute when nothing overflows: the digits folded
    negatively into [n]. *)
Definition acc_neg (n : Z) (ds : list Char) : Z :=
  fold_left (fun m c => m * 10 - (c - ch "0")) ds n.

(** CF = ratio_divide<From::period, To::period> has denominator 1 exactly when
    [to] is at least as fine as [from]; its numerator is then the number of
    [to] ticks in one [from] tick. *)
Definition ticks_per (from to : Duration) : Z :=
  fst (ratio_divide (period from) (period to)).

Definition finer_or_equal (to from : Duration) : Prop :=
  snd (ratio_divide (period from) (period to)) = 1.

(** The [switch] of [dispatch] without its arithmetic: the unit it recognises
    and the cursor after line 146. [iteration_factor] below shows that a pass
    of the loop body is [read_count], [scan_unit] and one [accumulate]. *)
Definition scan_unit (mem : list Char) (it : nat) : result (nat * Duration) :=
  c <- deref mem it ;;
  if c =? ch "n" then
    c2 <- deref mem (S it) ;;
    if c2 =? ch "s" then Return (S (S it), nanoseconds) else Throw
  else if c =? ch "u" then
    c2 <- deref mem (S it) ;;
    if c2 =? ch "s" then Return (S (S it), microseconds) else Throw
  else if c =? ch "m" then
    c2 <- deref mem (S it) ;;
    if c2 =? ch "s" then Return (S (S it), milliseconds)
    else Return (S it, minutes)
  else if c =? ch "s" then Return (S it, seconds)
  else if c =? ch "h" then Return (S it, hours)
  else Throw.

(** ** Vocabulary of the statements *)

(** A decimal digit. *)
Definition digit (c : Char) : Prop := is_digit c = true.

(** How a digit run under the cursor ends: at [last], or in front of a
    character that is no digit (and, where neither sign nor digit was read,
    no sign either). *)
Definition run_ends (sg : sign) (ds rest : list Char) (last : nat) : Prop :=
  ((length (sign_text sg) + length ds)%nat = last /\ sign_text sg ++ ds <> []) \/
  (exists c rest', rest = c :: rest' /\ is_digit c = false /\
     (sg = NoSign -> ds = [] -> c <> ch "+" /\ c <> ch "-")).

(** The [switch] on a unit suffix: a minute needs a following character that
    is not [s]; the other five need nothing behind them. *)
Definition not_s_follows (u : Duration) (post : list Char) : Prop :=
  u = minutes -> exists c post', post = c :: post' /\ c <> ch "s".

(** A continuation that does not start with [s]. *)
Definition not_s_head (R : list Char) : Prop :=
  exists c R', R = c :: R' /\ c <> ch "s".

(** The one place where what follows matters: a text ending in [m] must not
    be continued by [s]. *)
Definition seam (A R : list Char) : Prop :=
  last A 0 = ch "m" -> not_s_head R.

(** The unit suffixes the [switch] rejects: a first character that is none
    of [n], [u], [m], [s], [h]; an [n] or [u] followed by something other
    than [s]; an [n] or [u] at the end of the text. *)
Inductive invalid_suffix : list Char -> Prop :=
| unrecognized_first c rest :
    is_digit c = false ->
    c <> ch "n" -> c <> ch "u" -> c <> ch "m" -> c <> ch "s" -> c <> ch "h" ->
    invalid_suffix (c :: rest)
| n_without_s c rest : c <> ch "s" -> invalid_suffix (ch "n" :: c :: rest)
| u_without_s c rest : c <> ch "s" -> invalid_suffix (ch "u" :: c :: rest)
| lone_n : invalid_suffix [ch "n"]
| lone_u : invalid_suffix [ch "u"].

(** Moving storage, cursor and [last] by the same offset moves the resulting
    cursor and nothing else. *)
Definition shift {A : Type} (p : nat) (r : result (nat * A)) : result (nat * A) :=
  '(it, x) <- r ;; Return ((p + it)%nat, x).

(** A component as the scanner reads it: a sign, a digit run and a unit;
    [spelling] is its text and [raw] its signed count. *)
Record component : Type :=
  { c_sign : sign; c_digits : list Char; c_unit : Duration }.

Definition spelling (c : component) : list Char :=
  sign_text (c_sign c) ++ c_digits c ++ suffix (c_unit c).

Definition raw (c : component) : Z := sign_magnitude (c_sign c) (c_digits c).

(** The value [duration_cast] computes when nothing overflows: the count times
    CF::num, divided by CF::den with truncation toward zero. *)
Definition convert (to from : Duration) (n : Z) : Z :=
  let cf := ratio_divide (period from) (period to) in
  Z.quot (n * fst cf) (snd cf).

(** The arithmetic of the loop without the scanning: each component's count is
    converted and added to the total, in order. *)
Fixpoint add_components (to : Duration) (cs : list component) (tmp : rep)
  : result rep :=
  match cs with
  | [] => Return tmp
  | c :: cs' =>
      n <- checked (raw c) ;;
      tmp' <- accumulate to (c_unit c) n tmp ;;
      add_components to cs' tmp'
  end.

(** The sum of the converted counts, in unbounded integers. *)
Definition total (to : Duration) (cs : list component) : Z :=
  fold_right (fun c acc => convert to (c_unit c) (raw c) + acc) 0 cs.

(** The characters a text that parses can consist of. *)
Definition alphabet (c : Char) : bool :=
  is_digit c || (c =? ch "+") || (c =? ch "-") || (c =? ch "n") ||
  (c =? ch "u") || (c =? ch "m") || (c =? ch "s") || (c =? ch "h").

(** The characters the [switch] takes for the start of a unit. *)
Definition unit_letter (c : Char) : bool :=
  (c =? ch "n") || (c =? ch "u") || (c =? ch "m") || (c =? ch "s") ||
  (c =? ch "h").

(** An outcome with [a] added to the value it returns, if it returns one. *)
Definition offset (a : rep) (r : result rep) : result rep :=
  match r with
  | Return b => Return (a + b)
  | _ => r
  end.

(** ** Arithmetic on [rep] *)

Lemma in_rep_iff z : in_rep z = true <-> rep_min <= z <= rep_max.
Proof. unfold in_rep. rewrite andb_true_iff, !Z.leb_le. tauto. Qed.

Lemma checked_in z : rep_min <= z <= rep_max -> checked z = Return z.
Proof.
  intros H. unfold checked. apply in_rep_iff in H. now rewrite H.
Qed.

Lemma checked_Return z v : checked z = Return v -> v = z /\ rep_min <= z <= rep_max.
Proof.
  unfold checked. destruct (in_rep z) eqn:E; [|discriminate].
  intros [= <-]. split; [reflexivity | now apply in_rep_iff].
Qed.

Lemma checked_cases z :
  (rep_min <= z <= rep_max /\ checked z = Return z) \/
  (~ rep_min <= z <= rep_max /\ checked z = Undefined SignedOverflow).
Proof.
  unfold checked. destruct (in_rep z) eqn:E.
  - left. split; [now apply in_rep_iff | reflexivity].
  - right. split; [|reflexivity]. rewrite <- in_rep_iff. congruence.
Qed.

(** ** [duration_cast] between the six units *)

Lemma duration_cast_finer to from n :
  finer_or_equal to from ->
  rep_min <= n <= rep_max ->
  duration_cast to from n = checked (n * ticks_per from to).
Proof.
  unfold finer_or_equal, ticks_per. intros Hden Hn.
  destruct to, from; try discriminate Hden;
    cbv [duration_cast mul_rep];
    match goal with
    | |- context [ratio_divide ?a ?b] =>
        let r := eval vm_compute in (ratio_divide a b) in
        change (ratio_divide a b) with r
    end; cbn [fst snd Z.eqb Pos.eqb andb];
    try reflexivity;
    now rewrite Z.mul_1_r, checked_in.
Qed.

Lemma duration_cast_coarser to from n :
  finer_or_equal from to ->
  duration_cast to from n = Return (Z.quot n (ticks_per to from)).
Proof.
  unfold finer_or_equal, ticks_per. intros Hden.
  destruct to, from; try discriminate Hden;
    cbv [duration_cast mul_rep];
    repeat match goal with
    | |- context [ratio_divide ?a ?b] =>
        let r := eval vm_compute in (ratio_divide a b) in
        change (ratio_divide a b) with r
    end; cbn [fst snd Z.eqb Pos.eqb andb];
    try reflexivity;
    now rewrite Z.quot_1_r.
Qed.

Lemma ticks_per_pos a b : 0 < ticks_per a b.
Proof. destruct a, b; vm_compute; reflexivity. Qed.

(** ** Reading the storage *)

Lemma deref_app_r pre X k : deref (pre ++ X) (length pre + k) = deref X k.
Proof.
  unfold deref. rewrite nth_error_app2 by lia.
  now replace (length pre + k - length pre)%nat with k by lia.
Qed.

Lemma deref_Return mem it c : deref mem it = Return c -> (it < length mem)%nat.
Proof.
  unfold deref. destruct (nth_error mem it) eqn:E; [|discriminate].
  intros _. apply nth_error_Some. congruence.
Qed.

Lemma skipn_app_r {A} (pre X : list A) k :
  skipn (length pre + k) (pre ++ X) = skipn k X.
Proof. induction pre as [|a pre IH]; simpl; auto. Qed.

(** ** Digit runs *)

Lemma digit_iff c : digit c <-> 48 <= c <= 57.
Proof.
  unfold digit, is_digit. change (ch "0") with 48. change (ch "9") with 57.
  rewrite andb_true_iff, !Z.leb_le. tauto.
Qed.

Lemma acc_neg_cons n c ds : acc_neg n (c :: ds) = acc_neg (n * 10 - (c - ch "0")) ds.
Proof. reflexivity. Qed.

Lemma acc_neg_le ds : forall n, Forall digit ds -> n <= 0 -> acc_neg n ds <= n.
Proof.
  induction ds as [|c ds IH]; intros n Hds Hn; [simpl; unfold acc_neg; simpl; lia|].
  inversion Hds as [|? ? Hc Hds']; subst. rewrite acc_neg_cons.
  apply digit_iff in Hc. change (ch "0") with 48.
  specialize (IH (n * 10 - (c - 48)) Hds'). lia.
Qed.

Lemma acc_neg_decimal ds : forall n,
  acc_neg n ds = - fold_left (fun m c => m * 10 + (c - ch "0")) ds (- n).
Proof.
  unfold acc_neg. induction ds as [|c ds IH]; intros n; simpl; [lia|].
  rewrite IH. do 2 f_equal. lia.
Qed.

Lemma acc_neg_0 ds : acc_neg 0 ds = - decimal ds.
Proof. now rewrite acc_neg_decimal. Qed.

Lemma decimal_nonneg ds : Forall digit ds -> 0 <= decimal ds.
Proof.
  intros H. pose proof (acc_neg_le ds 0 H ltac:(lia)) as L.
  rewrite acc_neg_0 in L. lia.
Qed.

(** The inner loop over a run of digits that ends at [last] or at a character
    that is no digit: it stops after the run, with the digits folded
    negatively, or overflows on the way. *)
Lemma digits_loop_fwd ds : forall rest it last n,
  Forall digit ds ->
  n <= 0 -> rep_min <= n ->
  (it + length ds <= last)%nat ->
  ((it + length ds)%nat = last \/
   exists c rest', rest = c :: rest' /\ is_digit c = false) ->
  digits_loop (ds ++ rest) it last n =
  if rep_min <=? acc_neg n ds
  then Return ((it + length ds)%nat, acc_neg n ds)
  else Undefined SignedOverflow.
Proof.
  induction ds as [|c ds IH]; intros rest it last n Hds Hn0 Hn Hle Hstop.
  - cbn [app length acc_neg fold_left]. rewrite Nat.add_0_r in *.
    replace (rep_min <=? n) with true by (symmetry; now apply Z.leb_le).
    destruct Hstop as [<-|(c & rest' & -> & Hc)].
    + destruct rest; cbn [digits_loop]; now rewrite Nat.eqb_refl.
    + cbn [digits_loop]. rewrite Hc. now destruct (it =? last)%nat.
  - inversion Hds as [|? ? Hc Hds']; subst.
    cbn [app length digits_loop]. cbn [length] in Hle.
    replace (it =? last)%nat with false by (symmetry; apply Nat.eqb_neq; lia).
    rewrite Hc. rewrite acc_neg_cons.
    pose proof (proj1 (digit_iff c) Hc) as Hc'. change (ch "0") with 48 in *.
    unfold mul_rep, sub_rep.
    assert (Hmono : acc_neg (n * 10 - (c - 48)) ds <= n * 10 - (c - 48))
      by (apply acc_neg_le; [assumption | lia]).
    destruct (checked_cases (n * 10)) as [[R1 ->]|[R1 ->]]; cbn [bind].
    + destruct (checked_cases (n * 10 - (c - 48))) as [[R2 ->]|[R2 ->]]; cbn [bind].
      * assert (Hstop' : (S it + length ds)%nat = last \/
                           exists c0 rest', rest = c0 :: rest' /\ is_digit c0 = false)
          by (cbn [length] in Hstop; destruct Hstop as [<-|?]; [left; lia | now right]).
        rewrite (IH rest (S it) last) by (assumption || lia).
        now replace (S it + length ds)%nat with (it + S (length ds))%nat by lia.
      * replace (rep_min <=? _) with false; [reflexivity|].
        symmetry. apply Z.leb_gt. unfold rep_max in *. lia.
    + replace (rep_min <=? _) with false; [reflexivity|].
      symmetry. apply Z.leb_gt. unfold rep_max in *. lia.
Qed.

(** Conversely, a run of the inner loop that returns has consumed a run of
    digits and stopped at [last] or in front of a character that is no
    digit. *)
Lemma digits_loop_inv rest : forall it last n it2 n2,
  digits_loop rest it last n = Return (it2, n2) ->
  (it <= last)%nat -> n <= 0 -> rep_min <= n ->
  exists ds post,
    rest = ds ++ post /\ Forall digit ds /\
    it2 = (it + length ds)%nat /\ (it2 <= last)%nat /\
    n2 = acc_neg n ds /\ rep_min <= n2 <= 0 /\
    (it2 = last \/ exists c post', post = c :: post' /\ is_digit c = false).
Proof.
  induction rest as [|c rest IH]; intros it last n it2 n2 H Hle Hn0 Hn.
  - cbn [digits_loop] in H. destruct (it =? last)%nat eqn:E; [|discriminate].
    injection H as <- <-. apply Nat.eqb_eq in E.
    exists [], []. cbn. rewrite Nat.add_0_r. repeat split; auto; lia.
  - cbn [digits_loop] in H. destruct (it =? last)%nat eqn:E.
    { injection H as <- <-. apply Nat.eqb_eq in E.
      exists [], (c :: rest). cbn. rewrite Nat.add_0_r. repeat split; auto; lia. }
    apply Nat.eqb_neq in E.
    destruct (is_digit c) eqn:Hc.
    + unfold mul_rep, sub_rep in H.
      pose proof (proj1 (digit_iff c) Hc) as Hc'. change (ch "0") with 48 in *.
      destruct (checked_cases (n * 10)) as [[R1 Q]|[R1 Q]]; rewrite Q in H;
        cbn [bind] in H; [|discriminate].
      destruct (checked_cases (n * 10 - (c - 48))) as [[R2 Q2]|[R2 Q2]];
        rewrite Q2 in H; cbn [bind] in H; [|discriminate].
      apply IH in H; try lia.
      destruct H as (ds & post & -> & Hds & -> & Hl & -> & Hr & Hstop).
      exists (c :: ds), post. cbn [app length]. rewrite acc_neg_cons.
      change (ch "0") with 48.
      repeat split; auto; try lia.
      all: destruct Hstop as [<-|?]; [left; lia | now right].
    + injection H as <- <-.
      exists [], (c :: rest). cbn. rewrite Nat.add_0_r.
      repeat split; auto; try lia. right. now exists c, rest.
Qed.

(** ** The loop body in two halves *)

Ltac case_chars :=
  repeat match goal with
         | |- context [Z.eqb ?a ?b] => destruct (Z.eqb a b) eqn:?
         end.

(** The body is [read_count], then [scan_unit], then one [accumulate]. *)
Lemma iteration_factor to mem last it tmp :
  iteration to mem last it tmp =
  '(it2, n) <- read_count mem last it ;;
  '(it', u) <- scan_unit mem it2 ;;
  tmp' <- accumulate to u n tmp ;;
  Return (it', tmp').
Proof.
  unfold iteration, dispatch, scan_unit.
  destruct (read_count mem last it) as [[it2 n]| |]; cbn [bind]; try reflexivity.
  destruct (deref mem it2) as [c| |]; cbn [bind]; try reflexivity.
  case_chars; try reflexivity;
    try (destruct (deref mem (S it2)) as [c2| |]; cbn [bind]; try reflexivity;
         case_chars; try reflexivity);
    cbn [bind Nat.pred]; destruct (accumulate _ _ _ _); reflexivity.
Qed.

Lemma digits_loop_shift p rest : forall it last n,
  digits_loop rest (p + it) (p + last) n = shift p (digits_loop rest it last n).
Proof.
  induction rest as [|c rest IH]; intros it last n; cbn [digits_loop];
    replace (p + it =? p + last)%nat with (it =? last)%nat
      by (destruct (Nat.eqb_spec it last), (Nat.eqb_spec (p + it) (p + last)); lia || reflexivity);
    destruct (it =? last)%nat; try reflexivity.
  destruct (is_digit c); [|reflexivity].
  destruct (mul_rep n 10); cbn [bind]; try reflexivity.
  destruct (sub_rep a _); cbn [bind]; try reflexivity.
  rewrite <- IH. f_equal. lia.
Qed.

Lemma read_count_shift pre X last it :
  read_count (pre ++ X) (length pre + last) (length pre + it) =
  shift (length pre) (read_count X last it).
Proof.
  unfold read_count. rewrite deref_app_r.
  destruct (deref X it) as [c| |]; cbn [bind shift]; try reflexivity.
  set (it1 := if (c =? ch "+") || (c =? ch "-") then S it else it).
  replace (if (c =? ch "+") || (c =? ch "-") then S (length pre + it) else (length pre + it)%nat)
    with (length pre + it1)%nat
    by (unfold it1; destruct ((c =? ch "+") || (c =? ch "-")); lia).
  rewrite skipn_app_r, digits_loop_shift.
  destruct (digits_loop (skipn it1 X) it1 last 0) as [[it2 n]| |];
    cbn [bind shift]; try reflexivity.
  destruct (if c =? ch "-" then Return n else neg_rep n); reflexivity.
Qed.

Lemma scan_unit_shift pre X it :
  scan_unit (pre ++ X) (length pre + it) = shift (length pre) (scan_unit X it).
Proof.
  unfold scan_unit.
  replace (S (length pre + it)) with (length pre + S it)%nat by lia.
  rewrite !deref_app_r.
  destruct (deref X it) as [c| |]; cbn [bind shift]; try reflexivity.
  case_chars; try reflexivity;
    destruct (deref X (S it)) as [c2| |]; cbn [bind shift]; try reflexivity;
    case_chars; cbn [bind shift]; try reflexivity; do 2 f_equal; lia.
Qed.

Lemma iteration_shift to pre X last it tmp :
  iteration to (pre ++ X) (length pre + last) (length pre + it) tmp =
  shift (length pre) (iteration to X last it tmp).
Proof.
  rewrite !iteration_factor, read_count_shift.
  destruct (read_count X last it) as [[it2 n]| |]; cbn [bind shift]; try reflexivity.
  rewrite scan_unit_shift.
  destruct (scan_unit X it2) as [[it' u]| |]; cbn [bind shift]; try reflexivity.
  destruct (accumulate to u n tmp); reflexivity.
Qed.

Lemma loop_shift to pre X last : forall fuel it tmp,
  loop fuel to (pre ++ X) (length pre + last) (length pre + it) tmp =
  loop fuel to X last it tmp.
Proof.
  induction fuel as [|fuel IH]; intros it tmp; cbn [loop];
    replace (length pre + it =? length pre + last)%nat with (it =? last)%nat
      by (destruct (Nat.eqb_spec it last),
            (Nat.eqb_spec (length pre + it) (length pre + last)); lia || reflexivity);
    [reflexivity|].
  destruct (it =? last)%nat; [reflexivity|].
  rewrite iteration_shift.
  destruct (iteration to X last it tmp) as [[it' tmp']| |]; cbn [bind shift];
    auto.
Qed.

(** ** One component under the cursor *)

Ltac reveal_chars :=
  repeat match goal with
         | |- context [ch ?a] =>
             let v := eval vm_compute in (ch a) in change (ch a) with v
         | H : context [ch ?a] |- _ =>
             let v := eval vm_compute in (ch a) in change (ch a) with v in H
         end.

(** Lines 90-101 on [[+-]?\d*]: the inverted accumulation followed by
    [n = neg ? n : -n] is the sign-magnitude value, checked once. *)
Lemma read_count_fwd sg ds rest last :
  Forall digit ds ->
  (length (sign_text sg) + length ds <= last)%nat ->
  run_ends sg ds rest last ->
  read_count (sign_text sg ++ ds ++ rest) last 0 =
  n <- checked (sign_magnitude sg ds) ;;
  Return ((length (sign_text sg) + length ds)%nat, n).
Proof.
  intros Hds Hle Hstop.
  pose proof (decimal_nonneg ds Hds) as Hpos.
  assert (Hstop' : forall it, it = length (sign_text sg) ->
            (it + length ds)%nat = last \/
            exists c rest', rest = c :: rest' /\ is_digit c = false).
  { intros it ->. destruct Hstop as [[H _]|(c & rest' & H & Hc & _)];
      [now left | right; now exists c, rest']. }
  assert (Hfirst : sg = NoSign -> exists c0 tl,
            ds ++ rest = c0 :: tl /\ c0 <> 43 /\ c0 <> 45).
  { intros ->. destruct ds as [|d ds'].
    - destruct Hstop as [[_ H]|(c & rest' & -> & Hc & Hs)]; [now elim H|].
      specialize (Hs eq_refl eq_refl). reveal_chars. now exists c, rest'.
    - inversion Hds as [|? ? Hd _]; subst. apply digit_iff in Hd.
      exists d, (ds' ++ rest). split; [reflexivity | lia]. }
  unfold read_count, sign_magnitude.
  destruct sg; cbn [sign_text app length Nat.add] in *.
  - destruct (Hfirst eq_refl) as (c0 & tl & E & N1 & N2).
    rewrite E. cbn [deref nth_error bind]. reveal_chars.
    apply Z.eqb_neq in N1, N2. rewrite N1, N2. cbn [orb skipn].
    rewrite <- E, (digits_loop_fwd ds rest 0 last 0) by (auto; unfold rep_min; lia).
    rewrite acc_neg_0. unfold neg_rep.
    destruct (Z.leb_spec rep_min (- decimal ds)); cbn [bind Nat.add].
    + rewrite Z.opp_involutive. now destruct (checked (decimal ds)).
    + destruct (checked_cases (decimal ds)) as [[R _]|[_ ->]]; [|reflexivity].
      unfold rep_min, rep_max in *. lia.
  - cbn [deref nth_error bind]. reveal_chars. cbn [Z.eqb Pos.eqb orb skipn].
    rewrite (digits_loop_fwd ds rest 1 last 0) by (auto; unfold rep_min; lia).
    rewrite acc_neg_0. unfold neg_rep.
    destruct (Z.leb_spec rep_min (- decimal ds)); cbn [bind Nat.add].
    + rewrite Z.opp_involutive. now destruct (checked (decimal ds)).
    + destruct (checked_cases (decimal ds)) as [[R _]|[_ ->]]; [|reflexivity].
      unfold rep_min, rep_max in *. lia.
  - cbn [deref nth_error bind]. reveal_chars. cbn [Z.eqb Pos.eqb orb skipn].
    rewrite (digits_loop_fwd ds rest 1 last 0) by (auto; unfold rep_min; lia).
    rewrite acc_neg_0.
    destruct (Z.leb_spec rep_min (- decimal ds)); cbn [bind Nat.add].
    + rewrite checked_in; [reflexivity | unfold rep_max; lia].
    + destruct (checked_cases (- decimal ds)) as [[R _]|[_ ->]]; [lia | reflexivity].
Qed.

Lemma scan_unit_fwd u post :
  not_s_follows u post ->
  scan_unit (suffix u ++ post) 0 = Return (length (suffix u), u).
Proof.
  intros Hm. destruct u; try reflexivity.
  destruct (Hm eq_refl) as (c & post' & -> & Hc).
  cbn. unfold scan_unit. cbn [deref nth_error bind]. reveal_chars.
  cbn [Z.eqb Pos.eqb]. apply Z.eqb_neq in Hc. now rewrite Hc.
Qed.

Lemma suffix_head u :
  exists c tl, suffix u = c :: tl /\ is_digit c = false /\
               c <> ch "+" /\ c <> ch "-".
Proof.
  destruct u; cbn; eexists _, _; (split; [reflexivity|]); vm_compute;
    repeat split; discriminate.
Qed.

(** One pass of the loop body over [[+-]?\d*(ns|us|ms|s|m|h)] at the cursor:
    the sign-magnitude value, converted and added, and the cursor behind the
    suffix. *)
Lemma iteration_fwd to sg ds u post last tmp :
  Forall digit ds ->
  (length (sign_text sg) + length ds < last)%nat ->
  not_s_follows u post ->
  iteration to (sign_text sg ++ ds ++ suffix u ++ post) last 0 tmp =
  n <- checked (sign_magnitude sg ds) ;;
  tmp' <- accumulate to u n tmp ;;
  Return ((length (sign_text sg) + length ds + length (suffix u))%nat, tmp').
Proof.
  intros Hds Hlt Hm.
  rewrite iteration_factor, read_count_fwd; auto; try lia.
  - destruct (checked (sign_magnitude sg ds)) as [n| |]; cbn [bind]; try reflexivity.
    pose proof (scan_unit_shift (sign_text sg ++ ds) (suffix u ++ post) 0) as S.
    rewrite length_app, Nat.add_0_r, <- app_assoc in S. rewrite S.
    rewrite scan_unit_fwd by assumption. cbn [shift bind].
    destruct (accumulate to u n tmp); reflexivity.
  - right. destruct (suffix_head u) as (c & tl & -> & Hc & Hs).
    exists c, (tl ++ post). cbn [app]. auto.
Qed.

(** ** What a successful pass has read *)

Lemma scan_unit_inv post1 k u :
  scan_unit post1 0 = Return (k, u) ->
  exists post2, post1 = suffix u ++ post2 /\ k = length (suffix u) /\
                not_s_follows u post2.
Proof.
  unfold scan_unit, not_s_follows.
  destruct post1 as [|c [|c2 p]]; cbn [deref nth_error bind]; try discriminate;
    reveal_chars; case_chars; try discriminate;
    cbn [deref nth_error bind]; try discriminate;
    case_chars; try discriminate;
    intros [= <- <-];
    repeat match goal with
           | H : (_ =? _) = true |- _ => apply Z.eqb_eq in H; subst
           | H : (_ =? _) = false |- _ => apply Z.eqb_neq in H
           end;
    try (eexists; split; [reflexivity|]; split; [reflexivity|];
         intros; try discriminate; reveal_chars; eauto).
Qed.

Lemma read_count_inv X it2 n :
  read_count (X ++ [0]) (length X) 0 = Return (it2, n) ->
  exists sg ds post,
    X ++ [0] = sign_text sg ++ ds ++ post /\ Forall digit ds /\
    it2 = (length (sign_text sg) + length ds)%nat.
Proof.
  unfold read_count. destruct X as [|c X]; cbn [app deref nth_error bind length].
  - cbn. intros [= <- <-]. now exists NoSign, [], [0].
  - set (it1 := if (c =? ch "+") || (c =? ch "-") then 1%nat else 0%nat).
    intros H. fold it1 in H.
    match type of H with
    | bind ?d _ = _ => destruct d as [[it2' n0]| |] eqn:D
    end; cbn [bind] in H; try discriminate.
    assert (it2' = it2) as ->
      by (destruct (c =? ch "-"); [|destruct (neg_rep n0)];
          cbn [bind] in H; congruence).
    clear H. apply digits_loop_inv in D;
      [| unfold it1; destruct ((c =? ch "+") || (c =? ch "-")); lia
       | lia | unfold rep_min; lia].
    destruct D as (ds & post & E & Hds & -> & _).
    unfold it1 in *. clear it1.
    destruct (c =? ch "+") eqn:P; [|destruct (c =? ch "-") eqn:M]; cbn [orb skipn] in *.
    + apply Z.eqb_eq in P. subst c. exists Plus, ds, post. cbn [sign_text app length].
      now rewrite E.
    + apply Z.eqb_eq in M. subst c. exists Minus, ds, post. cbn [sign_text app length].
      now rewrite E.
    + exists NoSign, ds, post. cbn [sign_text app length]. auto.
Qed.

Lemma suffix_last u : exists front l, suffix u = front ++ [l] /\ l <> 0.
Proof.
  destruct u;
    [exists [ch "n"], (ch "s") | exists [ch "u"], (ch "s") | exists [ch "m"], (ch "s")
    | exists [], (ch "s") | exists [], (ch "m") | exists [], (ch "h")];
    split; (reflexivity || discriminate).
Qed.

(** Over a string, a pass that returns has read one
    [[+-]?\d*(ns|us|ms|s|m|h)] and none of the terminator. *)
Lemma iteration_inv to X tmp it' tmp' :
  iteration to (X ++ [0]) (length X) 0 tmp = Return (it', tmp') ->
  exists sg ds u post,
    X = sign_text sg ++ ds ++ suffix u ++ post /\ Forall digit ds /\
    not_s_follows u (post ++ [0]) /\
    it' = (length (sign_text sg) + length ds + length (suffix u))%nat.
Proof.
  rewrite iteration_factor.
  destruct (read_count (X ++ [0]) (length X) 0) as [[it2 n]| |] eqn:R;
    cbn [bind]; try discriminate.
  apply read_count_inv in R. destruct R as (sg & ds & post1 & E & Hds & ->).
  rewrite E.
  pose proof (scan_unit_shift (sign_text sg ++ ds) post1 0) as S.
  rewrite length_app, Nat.add_0_r, <- app_assoc in S. rewrite S. clear S.
  destruct (scan_unit post1 0) as [[k u]| |] eqn:U; cbn [shift bind]; try discriminate.
  apply scan_unit_inv in U. destruct U as (post2 & -> & -> & Hm).
  destruct (accumulate to u n tmp); cbn [bind]; try discriminate.
  intros [= <- <-].
  destruct post2 as [|z post2 _] using rev_ind.
  - exfalso. destruct (suffix_last u) as (front & l & Eu & Hl).
    rewrite Eu, app_nil_r, !app_assoc in E.
    apply app_inj_tail in E. destruct E as [_ E]. congruence.
  - rewrite !app_assoc in E. apply app_inj_tail in E. destruct E as [E <-].
    exists sg, ds, u, post2. rewrite E, <- !app_assoc.
    repeat split; auto.
Qed.

(** ** A parsed prefix keeps its reading when the text goes on *)

Lemma iteration_prefix to X R last2 tmp it' tmp' :
  iteration to (X ++ [0]) (length X) 0 tmp = Return (it', tmp') ->
  (length X <= last2)%nat ->
  seam X R ->
  (it' <= length X)%nat /\
  iteration to (X ++ R) last2 0 tmp = Return (it', tmp').
Proof.
  intros H Hle Hseam.
  destruct (iteration_inv _ _ _ _ _ H) as (sg & ds & u & post & -> & Hds & Hm & ->).
  pose proof (suffix_head u) as (c & tl & Eu & _).
  assert (Hlen : (length (sign_text sg) + length ds <
                  length (sign_text sg ++ ds ++ suffix u ++ post))%nat)
    by (rewrite !length_app, Eu; cbn [length]; lia).
  split; [rewrite !length_app; lia|].
  rewrite <- !app_assoc in H |- *.
  rewrite iteration_fwd in H by (auto; lia).
  assert (Hm' : not_s_follows u (post ++ R)); [|rewrite iteration_fwd; auto; lia].
  intros ->. destruct post as [|c0 post].
  - cbn [app]. apply Hseam. cbn [suffix chars list_ascii_of_string map].
    rewrite app_nil_r, !app_assoc. apply last_last.
  - destruct (Hm eq_refl) as (c1 & p1 & [= <- <-] & Hc1).
    now exists c0, (post ++ R).
Qed.

(** ** The outer loop *)

Lemma digits_loop_ge rest : forall it last n it2 n2,
  digits_loop rest it last n = Return (it2, n2) -> (it <= it2)%nat.
Proof.
  induction rest as [|c rest IH]; intros it last n it2 n2; cbn [digits_loop];
    destruct (it =? last)%nat; try discriminate; try (intros [= <- <-]; lia).
  destruct (is_digit c); [|intros [= <- <-]; lia].
  destruct (mul_rep n 10); cbn [bind]; try discriminate.
  destruct (sub_rep _ _); cbn [bind]; try discriminate.
  intros H. apply IH in H. lia.
Qed.

Lemma read_count_ge mem last it it2 n :
  read_count mem last it = Return (it2, n) -> (it <= it2)%nat.
Proof.
  unfold read_count. destruct (deref mem it) as [c| |]; cbn [bind]; try discriminate.
  destruct (digits_loop _ _ _ _) as [[it2' n0]| |] eqn:D; cbn [bind]; try discriminate.
  apply digits_loop_ge in D. intros H.
  assert (it2' = it2) as ->
    by (destruct (c =? ch "-"); [|destruct (neg_rep n0)]; cbn [bind] in H; congruence).
  destruct ((c =? ch "+") || (c =? ch "-")); lia.
Qed.

Lemma scan_unit_gt mem it it' u :
  scan_unit mem it = Return (it', u) -> (it < it' <= length mem)%nat.
Proof.
  unfold scan_unit. destruct (deref mem it) as [c| |] eqn:D; cbn [bind]; try discriminate.
  apply deref_Return in D.
  case_chars; try discriminate;
    try (destruct (deref mem (S it)) as [c2| |] eqn:D2; cbn [bind]; try discriminate;
         apply deref_Return in D2; case_chars; try discriminate);
    intros [= <- <-]; lia.
Qed.

(** Every pass through the body leaves the cursor strictly further on, and
    inside the storage or one behind it. *)
Lemma iteration_advances to mem last it tmp it' tmp' :
  iteration to mem last it tmp = Return (it', tmp') ->
  (it < it' <= length mem)%nat.
Proof.
  rewrite iteration_factor.
  destruct (read_count mem last it) as [[it2 n]| |] eqn:R; cbn [bind]; try discriminate.
  destruct (scan_unit mem it2) as [[k u]| |] eqn:U; cbn [bind]; try discriminate.
  destruct (accumulate to u n tmp); cbn [bind]; try discriminate.
  intros [= <- <-]. apply read_count_ge in R. apply scan_unit_gt in U. lia.
Qed.

Lemma loop_fuel_mono to mem last : forall f f' it tmp r,
  loop f to mem last it tmp = Some r -> (f <= f')%nat ->
  loop f' to mem last it tmp = Some r.
Proof.
  induction f as [|f IH]; intros f' it tmp r; cbn [loop].
  - destruct (it =? last)%nat eqn:E; [|discriminate].
    intros H _. destruct f'; cbn [loop]; now rewrite E.
  - destruct f' as [|f']; [lia|]. cbn [loop].
    destruct (it =? last)%nat; [auto|].
    destruct (iteration to mem last it tmp) as [[it' tmp']| |]; auto.
    intros H Hle. apply IH; [assumption | lia].
Qed.

Lemma loop_fuel_det to mem last f1 f2 it tmp r1 r2 :
  loop f1 to mem last it tmp = Some r1 ->
  loop f2 to mem last it tmp = Some r2 -> r1 = r2.
Proof.
  intros H1 H2.
  apply (loop_fuel_mono _ _ _ _ (Nat.max f1 f2)) in H1; [|lia].
  apply (loop_fuel_mono _ _ _ _ (Nat.max f1 f2)) in H2; [|lia].
  congruence.
Qed.

(** Fuel beyond the distance to the end of the storage is never used up. *)
Lemma loop_terminates to mem last : forall f it tmp,
  (length mem - it < f)%nat ->
  exists r, loop f to mem last it tmp = Some r.
Proof.
  induction f as [|f IH]; intros it tmp Hf; [lia|]. cbn [loop].
  destruct (it =? last)%nat; [eauto|].
  destruct (iteration to mem last it tmp) as [[it' tmp']| |] eqn:I; eauto.
  apply iteration_advances in I. apply IH. lia.
Qed.

Lemma to_duration_range_fuel to mem first last f r :
  loop f to mem last first 0 = Some r ->
  to_duration_range to mem first last = Some r.
Proof.
  intros H. unfold to_duration_range.
  destruct (loop_terminates to mem last (S (length mem)) first 0 ltac:(lia)) as [r' H'].
  rewrite H'. f_equal. eapply loop_fuel_det; eassumption.
Qed.

(** A run over [A] that returns is the first part of the run over any
    continuation of [A] that respects the seam. *)
Lemma loop_prefix to A R last2 :
  seam A R -> (length A <= last2)%nat ->
  forall f it tmp a,
    (it <= length A)%nat ->
    loop f to (A ++ [0]) (length A) it tmp = Some (Return a) ->
    forall f2 r,
      loop f2 to (A ++ R) last2 (length A) a = Some r ->
      exists f3, loop f3 to (A ++ R) last2 it tmp = Some r.
Proof.
  intros Hseam Hlast.
  induction f as [|f IH]; intros it tmp a Hit; cbn [loop];
    destruct (Nat.eqb_spec it (length A)) as [->|Hne];
    try discriminate; try (intros [= ->]; eauto).
  pose proof (firstn_skipn it A) as EA.
  set (pre := firstn it A) in *. set (X := skipn it A) in *.
  assert (Hpre : length pre = it) by (apply firstn_length_le; lia).
  assert (HX : (it + length X)%nat = length A)
    by (rewrite <- EA, length_app; lia).
  assert (HXne : X <> []) by (intros E; rewrite E in HX; cbn in HX; lia).
  assert (Hseam' : seam X R).
  { unfold seam in *. rewrite <- EA in Hseam.
    destruct X as [|x X'] using rev_ind; [congruence|].
    rewrite app_assoc, last_last in Hseam. now rewrite last_last. }
  replace (iteration to (A ++ [0]) (length A) it tmp)
    with (shift (length pre) (iteration to (X ++ [0]) (length X) 0 tmp)).
  2:{ rewrite <- iteration_shift, app_assoc, EA. f_equal; lia. }
  destruct (iteration to (X ++ [0]) (length X) 0 tmp) as [[k tmp']| |] eqn:I;
    cbn [shift bind]; try discriminate.
  intros H f2 r Hr.
  destruct (iteration_prefix to X R (last2 - it) tmp k tmp' I ltac:(lia) Hseam')
    as [Hk I2].
  destruct (IH (length pre + k)%nat tmp' a ltac:(lia) H f2 r Hr) as [f3 H3].
  exists (S f3). cbn [loop].
  destruct (Nat.eqb_spec it last2) as [->|_]; [lia|].
  replace (iteration to (A ++ R) last2 it tmp)
    with (shift (length pre) (iteration to (X ++ R) (last2 - it) 0 tmp)).
  2:{ rewrite <- iteration_shift, app_assoc, EA. f_equal; lia. }
  rewrite I2. cbn [shift bind]. exact H3.
Qed.

(** Starting the same run from a larger accumulator adds the difference to
    the result, unless one of the additions leaves the range on the way. *)
Lemma loop_acc to mem last a : forall f it tmp b,
  loop f to mem last it tmp = Some (Return b) ->
  loop f to mem last it (a + tmp) = Some (Return (a + b)) \/
  loop f to mem last it (a + tmp) = Some (Undefined SignedOverflow).
Proof.
  induction f as [|f IH]; intros it tmp b; cbn [loop];
    destruct (it =? last)%nat; try discriminate;
    try (intros [= ->]; now left).
  rewrite !iteration_factor.
  destruct (read_count mem last it) as [[it2 n]| |]; cbn [bind]; try discriminate.
  destruct (scan_unit mem it2) as [[it' u]| |]; cbn [bind]; try discriminate.
  unfold accumulate.
  destruct (duration_cast to u n) as [v| |]; cbn [bind]; try discriminate.
  unfold add_rep.
  destruct (checked_cases (tmp + v)) as [[_ ->]|[_ ->]]; cbn [bind]; [|discriminate].
  intros H.
  destruct (checked_cases (a + tmp + v)) as [[_ ->]|[_ ->]]; cbn [bind]; [|now right].
  replace (a + tmp + v) with (a + (tmp + v)) by lia. now apply IH.
Qed.

(** ** Whole strings *)

Lemma to_duration_fuel to str f r :
  loop f to (str ++ [0]) (length str) 0 0 = Some r ->
  to_duration to str = Some r.
Proof. apply to_duration_range_fuel. Qed.

Lemma to_duration_loop to str r :
  to_duration to str = Some r ->
  exists f, loop f to (str ++ [0]) (length str) 0 0 = Some r.
Proof. intros H. now exists (S (length (str ++ [0]))). Qed.

(** A text that is one [[+-]?\d*(ns|us|ms|s|m|h)]. *)
Lemma to_duration_component to sg ds u :
  Forall digit ds ->
  to_duration to (sign_text sg ++ ds ++ suffix u) =
  Some (n <- checked (sign_magnitude sg ds) ;; accumulate to u n 0).
Proof.
  intros Hds.
  destruct (suffix_head u) as (c & tl & Eu & _).
  set (str := sign_text sg ++ ds ++ suffix u).
  assert (Hlen : length str =
                 (length (sign_text sg) + length ds + length (suffix u))%nat)
    by (unfold str; rewrite !length_app; lia).
  assert (Hpos : (length (sign_text sg) + length ds < length str)%nat)
    by (rewrite Hlen, Eu; cbn [length]; lia).
  apply (to_duration_fuel _ _ 1). cbn [loop].
  destruct (Nat.eqb_spec 0 (length str)) as [E|_]; [lia|].
  unfold str. rewrite <- !app_assoc. fold str.
  rewrite iteration_fwd; auto.
  2:{ intros _. exists 0, []. split; [reflexivity | discriminate]. }
  destruct (checked (sign_magnitude sg ds)) as [n| |]; cbn [bind]; try reflexivity.
  destruct (accumulate to u n 0) as [v| |]; cbn [bind]; try reflexivity.
  now rewrite <- Hlen, Nat.eqb_refl.
Qed.

(** Concatenation adds, as long as the seam is respected: the run over
    [A ++ B] is the run over [A] followed by the run over [B] started from
    the total of [A]. A text of the documented format starts with a sign or
    a digit, never with [s], so the seam only matters for a [B] whose first
    component has no digits. *)
Theorem to_duration_app to A B a b :
  to_duration to A = Some (Return a) ->
  to_duration to B = Some (Return b) ->
  ~ (last A 0 = ch "m" /\ hd 0 B = ch "s") ->
  to_duration to (A ++ B) = Some (Return (a + b)) \/
  to_duration to (A ++ B) = Some (Undefined SignedOverflow).
Proof.
  intros HA HB Hseam.
  apply to_duration_loop in HA, HB. destruct HA as [fA HA], HB as [fB HB].
  assert (Hs : seam A (B ++ [0])).
  { intros Hm. destruct B as [|c B'].
    - exists 0, []. split; [reflexivity | discriminate].
    - exists c, (B' ++ [0]). split; [reflexivity|]. cbn [hd] in Hseam. tauto. }
  assert (Hgo : forall r, loop fB to (B ++ [0]) (length B) 0 (a + 0) = Some r ->
                          to_duration to (A ++ B) = Some r).
  { intros r Hr.
    rewrite <- (loop_shift to A) in Hr. rewrite Nat.add_0_r, Z.add_0_r in Hr.
    destruct (loop_prefix to A (B ++ [0]) (length A + length B) Hs ltac:(lia)
                fA 0%nat 0 a ltac:(lia) HA fB r Hr) as [f3 H3].
    apply (to_duration_fuel _ _ f3).
    now rewrite <- app_assoc, length_app. }
  destruct (loop_acc to _ _ a _ _ _ _ HB) as [H|H]; [left | right];
    now apply Hgo in H.
Qed.

(** ** Coarser and finer targets *)

Ltac reveal_ratios :=
  repeat match goal with
         | |- context [ratio_divide ?a ?b] =>
             let r := eval vm_compute in (ratio_divide a b) in
             change (ratio_divide a b) with r
         | H : context [ratio_divide ?a ?b] |- _ =>
             let r := eval vm_compute in (ratio_divide a b) in
             change (ratio_divide a b) with r in H
         end.

(** Casting one count to a fine and to a coarse target: the coarse value is
    the fine one divided by the number of fine ticks per coarse tick,
    truncating toward zero. *)
Lemma duration_cast_coarsen R1 R2 u n v1 v2 :
  finer_or_equal R1 R2 ->
  duration_cast R1 u n = Return v1 ->
  duration_cast R2 u n = Return v2 ->
  v2 = Z.quot v1 (ticks_per R2 R1).
Proof.
  unfold finer_or_equal, ticks_per, duration_cast, mul_rep.
  intros Hfine H1 H2.
  destruct R1, R2; try discriminate Hfine; clear Hfine; destruct u;
    reveal_ratios; cbn [fst snd Z.eqb Pos.eqb andb bind] in *;
    repeat match goal with
           | H : checked _ = Return _ |- _ =>
               apply checked_Return in H; destruct H as [-> _]
           | H : Return _ = Return _ |- _ => injection H as <-
           end;
    Z.to_euclidean_division_equations; lia.
Qed.

Lemma accumulate_Return to u n tmp r :
  accumulate to u n tmp = Return r ->
  exists v, duration_cast to u n = Return v /\ r = tmp + v.
Proof.
  unfold accumulate, add_rep.
  destruct (duration_cast to u n) as [v| |]; cbn [bind]; try discriminate.
  intros H. apply checked_Return in H. exists v. tauto.
Qed.

(** ** What follows a parsed prefix *)

Lemma to_duration_range_after to P p R last' f r :
  to_duration to P = Some (Return p) ->
  seam P R ->
  loop f to R last' 0 p = Some r ->
  to_duration_range to (P ++ R) 0 (length P + last') = Some r.
Proof.
  intros HP Hseam Hr.
  apply to_duration_loop in HP. destruct HP as [fP HP].
  rewrite <- (loop_shift to P) in Hr. rewrite Nat.add_0_r in Hr.
  destruct (loop_prefix to P R (length P + last') Hseam ltac:(lia)
              fP 0%nat 0 p ltac:(lia) HP f r Hr) as [f3 H3].
  now apply (to_duration_range_fuel _ _ _ _ f3).
Qed.

Lemma to_duration_after to P p comp f r :
  to_duration to P = Some (Return p) ->
  seam P (comp ++ [0]) ->
  loop f to (comp ++ [0]) (length comp) 0 p = Some r ->
  to_duration to (P ++ comp) = Some r.
Proof.
  intros HP Hseam Hr. unfold to_duration.
  rewrite <- app_assoc, length_app.
  now apply (to_duration_range_after to P p (comp ++ [0]) (length comp) f).
Qed.

(** A component never starts with [s] once it has a sign, a digit or a first
    character other than [s]. *)
Lemma component_not_s_head sg ds rest :
  Forall digit ds ->
  (sg = NoSign -> ds = [] -> not_s_head rest) ->
  not_s_head (sign_text sg ++ ds ++ rest).
Proof.
  intros Hds Hrest. unfold not_s_head.
  destruct sg; cbn [sign_text app];
    try (eexists _, _; split; [reflexivity | discriminate]).
  destruct ds as [|d ds']; [now apply Hrest|].
  inversion Hds as [|? ? Hd _]; subst. apply digit_iff in Hd.
  exists d, (ds' ++ rest). split; [reflexivity|]. reveal_chars. lia.
Qed.

Lemma scan_unit_invalid bad :
  invalid_suffix bad -> scan_unit (bad ++ [0]) 0 = Throw.
Proof.
  intros H. unfold scan_unit.
  destruct H; cbn [app deref nth_error bind];
    repeat match goal with
           | H : _ <> _ |- _ => apply Z.eqb_neq in H; try rewrite H; clear H
           end; reflexivity.
Qed.

Lemma invalid_suffix_head bad :
  invalid_suffix bad ->
  exists c rest, bad = c :: rest /\ is_digit c = false /\ c <> ch "s".
Proof.
  intros H. destruct H; eexists _, _; (split; [reflexivity|]);
    (split; [assumption || reflexivity | assumption || discriminate]).
Qed.

(** One pass over [[+-]?\d*] followed by anything: the count is read and the
    [switch] decides on what follows. *)
Lemma iteration_scan to sg ds rest last tmp :
  Forall digit ds ->
  (length (sign_text sg) + length ds <= last)%nat ->
  run_ends sg ds rest last ->
  rep_min <= sign_magnitude sg ds <= rep_max ->
  iteration to (sign_text sg ++ ds ++ rest) last 0 tmp =
  '(it', u) <- shift (length (sign_text sg) + length ds) (scan_unit rest 0) ;;
  tmp' <- accumulate to u (sign_magnitude sg ds) tmp ;;
  Return (it', tmp').
Proof.
  intros Hds Hle Hends Hfit.
  rewrite iteration_factor, read_count_fwd by assumption.
  rewrite checked_in by assumption. cbn [bind].
  pose proof (scan_unit_shift (sign_text sg ++ ds) rest 0) as S.
  rewrite length_app, Nat.add_0_r, <- app_assoc in S. now rewrite S.
Qed.

(** Behind a parsed prefix, a component whose unit the [switch] rejects ends
    the call in the exception. *)
Lemma component_throws to P p sg ds rest :
  to_duration to P = Some (Return p) ->
  Forall digit ds ->
  sign_text sg ++ ds ++ rest <> [] ->
  (sg = NoSign -> ds = [] -> hd 0 rest <> ch "+" /\ hd 0 rest <> ch "-") ->
  is_digit (hd 0 rest) = false ->
  scan_unit (rest ++ [0]) 0 = Throw ->
  rep_min <= sign_magnitude sg ds <= rep_max ->
  to_duration to (P ++ sign_text sg ++ ds ++ rest) = Some Throw.
Proof.
  intros HP Hds Hne Hsign Hnd Hscan Hfit.
  set (comp := sign_text sg ++ ds ++ rest) in *.
  assert (Hhd : exists c tl, rest ++ [0] = c :: tl /\ c = hd 0 rest).
  { destruct rest as [|c tl]; [now exists 0, [] | now exists c, (tl ++ [0])]. }
  destruct Hhd as (c & tl & Ehd & Hc).
  assert (Hlen : (length (sign_text sg) + length ds <= length comp)%nat)
    by (unfold comp; rewrite !length_app; lia).
  apply (to_duration_after to P p comp 1); [assumption| |].
  - intros _. unfold comp. rewrite <- !app_assoc.
    apply component_not_s_head; [assumption|].
    intros _ _. exists c, tl. split; [assumption|].
    intros ->. rewrite Ehd in Hscan. discriminate Hscan.
  - cbn [loop]. destruct (Nat.eqb_spec 0 (length comp)) as [E|_].
    { destruct comp; [now elim Hne | discriminate E]. }
    unfold comp. rewrite <- !app_assoc. fold comp.
    rewrite iteration_scan, Hscan; auto.
    right. exists c, tl. rewrite <- Hc in *. auto.
Qed.

(** Behind a parsed prefix, a component is converted and added to the total
    of the prefix. The one exception is the seam of [seam]: a bare [s] behind
    a prefix ending in [m]. *)
Lemma component_after to P p sg ds u :
  to_duration to P = Some (Return p) ->
  Forall digit ds ->
  ~ (last P 0 = ch "m" /\ sg = NoSign /\ ds = [] /\ u = seconds) ->
  to_duration to (P ++ sign_text sg ++ ds ++ suffix u) =
  Some (n <- checked (sign_magnitude sg ds) ;; accumulate to u n p).
Proof.
  intros HP Hds Hseam.
  destruct (suffix_head u) as (c & tl & Eu & _).
  set (comp := sign_text sg ++ ds ++ suffix u).
  assert (Hlen : length comp =
                 (length (sign_text sg) + length ds + length (suffix u))%nat)
    by (unfold comp; rewrite !length_app; lia).
  assert (Hpos : (length (sign_text sg) + length ds < length comp)%nat)
    by (rewrite Hlen, Eu; cbn [length]; lia).
  assert (Hloop : loop 1 to (comp ++ [0]) (length comp) 0 p =
                  Some (n <- checked (sign_magnitude sg ds) ;; accumulate to u n p)).
  { cbn [loop]. destruct (Nat.eqb_spec 0 (length comp)) as [E|_]; [lia|].
    unfold comp. rewrite <- !app_assoc. fold comp.
    rewrite iteration_fwd; auto.
    2:{ intros _. exists 0, []. split; [reflexivity | discriminate]. }
    destruct (checked (sign_magnitude sg ds)) as [n| |]; cbn [bind]; try reflexivity.
    destruct (accumulate to u n p) as [v| |]; cbn [bind]; try reflexivity.
    now rewrite <- Hlen, Nat.eqb_refl. }
  apply (to_duration_after to P p comp 1); [assumption| |exact Hloop].
  intros Hm. unfold comp. rewrite <- !app_assoc.
  apply component_not_s_head; [assumption|].
  intros -> ->. destruct u; cbn; try (eexists _, _; split; [reflexivity | discriminate]).
  exfalso. apply Hseam. auto.
Qed.

(** ** Termination, and safety over strings *)

Lemma checked_ub z u : checked z = Undefined u -> u = SignedOverflow.
Proof. unfold checked. destruct (in_rep z); congruence. Qed.

Lemma accumulate_ub to u n tmp e :
  accumulate to u n tmp = Undefined e -> e = SignedOverflow.
Proof.
  unfold accumulate, duration_cast, add_rep, mul_rep.
  repeat match goal with
         | |- context [if ?b then _ else _] => destruct b
         end; cbn [bind];
    repeat match goal with
           | |- context [bind (checked ?z) _] =>
               destruct (checked z) eqn:?; cbn [bind]
           end;
    intros H; try discriminate;
    repeat match goal with
           | H : checked _ = Undefined _ |- _ => apply checked_ub in H
           end; congruence.
Qed.

Lemma deref_in mem it : (it < length mem)%nat -> exists c, deref mem it = Return c.
Proof.
  intros H. unfold deref. destruct (nth_error mem it) eqn:E; [eauto|].
  apply nth_error_None in E. lia.
Qed.

Lemma digits_loop_safe rest : forall it last n,
  (it <= last)%nat -> (last - it < length rest)%nat ->
  digits_loop rest it last n <> Undefined OutOfRange.
Proof.
  induction rest as [|c rest IH]; intros it last n Hle Hlen; cbn [length] in Hlen;
    [lia|].
  cbn [digits_loop]. destruct (Nat.eqb_spec it last); [discriminate|].
  destruct (is_digit c); [|discriminate].
  unfold mul_rep, sub_rep.
  destruct (checked (n * 10)) eqn:E1; cbn [bind]; try discriminate.
  - destruct (checked (a - (c - ch "0"))) eqn:E2; cbn [bind]; try discriminate.
    + apply IH; lia.
    + apply checked_ub in E2. congruence.
  - apply checked_ub in E1. congruence.
Qed.

Lemma scan_unit_string_safe X it :
  (it <= length X)%nat -> scan_unit (X ++ [0]) it <> Undefined OutOfRange.
Proof.
  intros Hle. unfold scan_unit.
  destruct (Nat.eq_dec it (length X)) as [->|Hne].
  - replace (length X) with (length X + 0)%nat at 1 by lia.
    rewrite deref_app_r. cbn. discriminate.
  - destruct (deref_in (X ++ [0]) it) as [c ->];
      [rewrite length_app; cbn [length]; lia|].
    destruct (deref_in (X ++ [0]) (S it)) as [c2 ->];
      [rewrite length_app; cbn [length]; lia|].
    cbn [bind]. case_chars; discriminate.
Qed.

Lemma iteration_string_safe to X tmp :
  X <> [] -> iteration to (X ++ [0]) (length X) 0 tmp <> Undefined OutOfRange.
Proof.
  intros HX H. rewrite iteration_factor in H.
  destruct (read_count (X ++ [0]) (length X) 0) as [[it2 n]| |] eqn:R;
    cbn [bind] in H; try discriminate.
  - assert (Hit2 : (it2 <= length X)%nat).
    { apply read_count_inv in R. destruct R as (sg & ds & post & E & Hds & ->).
      unfold read_count in *.
      assert (L : length (X ++ [0]) = length (sign_text sg ++ ds ++ post))
        by now rewrite E.
      rewrite !length_app in L. cbn [length] in L.
      destruct post as [|z post]; [|cbn [length] in L; lia].
      exfalso. rewrite app_nil_r in E.
      destruct ds as [|d ds _] using rev_ind.
      - rewrite app_nil_r in E. destruct sg, X as [|x [|y X]]; cbn in E;
          try discriminate; congruence.
      - rewrite app_assoc in E. apply app_inj_tail in E. destruct E as [_ E].
        apply Forall_app in Hds. destruct Hds as [_ Hd].
        inversion Hd as [|? ? Hd' _]; subst. apply digit_iff in Hd'. lia. }
    pose proof (scan_unit_string_safe X it2 Hit2) as U.
    destruct (scan_unit (X ++ [0]) it2) as [[it' u]| |]; cbn [bind] in H;
      try discriminate; [|congruence].
    destruct (accumulate to u n tmp) eqn:A; cbn [bind] in H; try discriminate.
    apply accumulate_ub in A. congruence.
  - injection H as ->. unfold read_count in R.
    destruct X as [|c X]; [congruence|]. cbn [app deref nth_error bind] in R.
    match type of R with
    | bind ?d _ = _ => destruct d as [[it2 n0]| |] eqn:D
    end; cbn [bind] in R; try discriminate.
    + destruct (c =? ch "-"); cbn [bind] in R; try discriminate.
      destruct (neg_rep n0) eqn:N; cbn [bind] in R; try discriminate.
      apply checked_ub in N. congruence.
    + injection R as ->. revert D. apply digits_loop_safe;
        destruct ((c =? ch "+") || (c =? ch "-")); cbn [skipn length];
        rewrite ?length_app; cbn [length]; lia.
Qed.

Lemma iteration_from to A R last it tmp :
  (it <= length A)%nat -> (it <= last)%nat ->
  iteration to (A ++ R) last it tmp =
  shift it (iteration to (skipn it A ++ R) (last - it) 0 tmp).
Proof.
  intros HA Hl.
  pose proof (iteration_shift to (firstn it A) (skipn it A ++ R) (last - it) 0 tmp) as S.
  rewrite app_assoc, firstn_skipn in S.
  rewrite firstn_length_le in S by lia.
  replace (it + (last - it))%nat with last in S by lia.
  now rewrite Nat.add_0_r in S.
Qed.

(** Over a string the cursor never moves past [last], and nothing but the
    string and its terminator is read. *)
Lemma loop_string_safe to A : forall f it tmp r,
  (it <= length A)%nat ->
  loop f to (A ++ [0]) (length A) it tmp = Some r ->
  r <> Undefined OutOfRange.
Proof.
  induction f as [|f IH]; intros it tmp r Hit; cbn [loop];
    destruct (Nat.eqb_spec it (length A)) as [->|Hne];
    try discriminate; try (intros [= <-]; discriminate).
  rewrite iteration_from by lia.
  assert (HX : length (skipn it A) = (length A - it)%nat) by apply length_skipn.
  rewrite <- HX.
  destruct (iteration to (skipn it A ++ [0]) (length (skipn it A)) 0 tmp)
    as [[k tmp']| |] eqn:I; cbn [shift bind].
  - apply iteration_prefix with (R := [0]) (last2 := length (skipn it A)) in I;
      [|lia|intros _; exists 0, []; split; [reflexivity | discriminate]].
    apply IH. lia.
  - intros [= <-]. discriminate.
  - intros [= <-] [= ->]. revert I. apply iteration_string_safe.
    intros E. rewrite E in HX. cbn in HX. lia.
Qed.

(** ** The tests of the repository (test/to_duration_test.cpp) *)

Example test_std_string : to_duration seconds (chars "1s") = Some (Return 1).
Proof. reflexivity. Qed.

Example test_char_pointer :
  to_duration_cstr seconds (chars "1s" ++ [0]) = Some (Return 1).
Proof. reflexivity. Qed.

Example test_throws :
  to_duration_cstr seconds (chars "" ++ [0]) = Some (Return 0) /\
  to_duration_cstr seconds (chars "invalid" ++ [0]) = Some Throw /\
  to_duration_cstr seconds (chars "12z" ++ [0]) = Some Throw.
Proof. repeat split. Qed.

Example test_units :
  to_duration_cstr nanoseconds (chars "1ns" ++ [0]) = Some (Return 1) /\
  to_duration_cstr microseconds (chars "1us" ++ [0]) = Some (Return 1) /\
  to_duration_cstr milliseconds (chars "1ms" ++ [0]) = Some (Return 1) /\
  to_duration_cstr seconds (chars "1s" ++ [0]) = Some (Return 1) /\
  to_duration_cstr minutes (chars "1m" ++ [0]) = Some (Return 1) /\
  to_duration_cstr hours (chars "1h" ++ [0]) = Some (Return 1).
Proof. repeat split. Qed.

Example test_combination :
  to_duration_cstr nanoseconds (chars "1h1m1s1ms1us1ns" ++ [0]) =
  Some (Return (1 + 1000 + 1000000 + 1000000000 + 60000000000 + 3600000000000)).
Proof. reflexivity. Qed.

(** The example of the header: [1h33m7s] is 5587 seconds. *)
Example header_example :
  to_duration_cstr seconds (chars "1h33m7s" ++ [0]) = Some (Return 5587).
Proof. reflexivity. Qed.

(** * The claims *)

(** C1, against the claim as stated: the product of the count and the ratio
    must fit the 64-bit tick count, and short digit runs already exceed it.
    [2562048h] at nanosecond resolution would be 2562048 * 3.6e12, which is
    above 2^63 - 1: the multiplication inside [duration_cast] overflows and no
    value of the result type is that product. *)
Lemma single_component_product_overflows :
  ~ (forall (to u : Duration) (ds : list Char),
        Forall digit ds -> ds <> [] ->
        finer_or_equal to u ->
        to_duration to (ds ++ suffix u) =
        Some (Return (decimal ds * ticks_per u to))).
Proof.
  intros H.
  specialize (H nanoseconds hours (chars "2562048")
                ltac:(repeat constructor) ltac:(discriminate) eq_refl).
  vm_compute in H. discriminate H.
Qed.

(** C1, amended. A single component [<N><unit>], [N] a non-negative decimal
    literal, parsed at a resolution equal to or finer than its unit, yields
    exactly [N] times the number of target ticks in one unit, as long as that
    product fits the 64-bit tick count; the ratios are the fixed ones, 1 hour =
    60 minutes = 3600 seconds = 3,600,000 milliseconds = 3.6e9 microseconds =
    3.6e12 nanoseconds. *)
Theorem single_component_value (to u : Duration) (ds : list Char) :
  Forall digit ds -> ds <> [] ->
  finer_or_equal to u ->
  decimal ds * ticks_per u to <= rep_max ->
  to_duration to (ds ++ suffix u) = Some (Return (decimal ds * ticks_per u to)) /\
  ticks_per hours minutes = 60 /\
  ticks_per hours seconds = 3600 /\
  ticks_per hours milliseconds = 3600000 /\
  ticks_per hours microseconds = 3600000000 /\
  ticks_per hours nanoseconds = 3600000000000.
Proof.
  intros Hds _ Hfine Hmax. split; [|repeat split].
  pose proof (decimal_nonneg ds Hds) as H0.
  pose proof (ticks_per_pos u to) as Hk.
  assert (Hn : rep_min <= decimal ds <= rep_max) by (unfold rep_min; nia).
  change (ds ++ suffix u) with (sign_text NoSign ++ ds ++ suffix u).
  rewrite (to_duration_component to NoSign ds u Hds). cbn [sign_magnitude].
  rewrite (checked_in _ Hn). cbn [bind]. unfold accumulate.
  rewrite duration_cast_finer by assumption.
  rewrite checked_in by (unfold rep_min; nia). cbn [bind].
  unfold add_rep. now rewrite checked_in by (unfold rep_min; nia).
Qed.

Lemma single_component_value_witness :
  to_duration milliseconds (chars "1s") = Some (Return 1000).
Proof.
  exact (proj1 (single_component_value milliseconds seconds (chars "1")
                  ltac:(repeat constructor) ltac:(discriminate)
                  ltac:(reflexivity) ltac:(vm_compute; discriminate))).
Defined.

(** C2, as the code has it. A component without any digit is not rejected:
    the digit loop leaves [n = 0] and the unit is read as usual. Whatever
    the sign and the unit, the text parses to zero at every resolution; the
    texts [s], [ns], [h] and [+m] are among them. *)
Theorem digitless_component_accepted (to : Duration) (sg : sign) (u : Duration) :
  to_duration to (sign_text sg ++ suffix u) = Some (Return 0) /\
  to_duration to (chars "s") = Some (Return 0) /\
  to_duration to (chars "ns") = Some (Return 0) /\
  to_duration to (chars "h") = Some (Return 0) /\
  to_duration to (chars "+m") = Some (Return 0).
Proof. destruct to, sg, u; repeat split. Qed.

(** C3, as the code has it. [1m] and [s] both parse, and their concatenation
    [1ms] is read as one millisecond, not as one minute plus zero seconds. *)
Theorem concatenation_across_m_s :
  to_duration nanoseconds (chars "1m") = Some (Return 60000000000) /\
  to_duration nanoseconds (chars "s") = Some (Return 0) /\
  to_duration nanoseconds (chars "1m" ++ chars "s") = Some (Return 1000000).
Proof. vm_compute. auto. Qed.

(** C4. Behind a digit run, [m] followed by [s] is read as milliseconds and
    the cursor moves behind the [s]; [m] followed by any other character [c]
    is read as minutes and the cursor is left on [c], which the next pass
    reads as the start of the next component. So [1m] is one minute, [1ms]
    one millisecond, and [1m30s] one minute plus thirty seconds. *)
Theorem minute_or_millisecond (to : Duration) (sg : sign) (ds : list Char)
  (c : Char) (post : list Char) (last : nat) (tmp : rep) :
  Forall digit ds ->
  (length (sign_text sg) + length ds < last)%nat ->
  c <> ch "s" ->
  let k := (length (sign_text sg) + length ds)%nat in
  iteration to (sign_text sg ++ ds ++ ch "m" :: ch "s" :: post) last 0 tmp =
    (n <- checked (sign_magnitude sg ds) ;;
     tmp' <- accumulate to milliseconds n tmp ;;
     Return ((k + 2)%nat, tmp')) /\
  iteration to (sign_text sg ++ ds ++ ch "m" :: c :: post) last 0 tmp =
    (n <- checked (sign_magnitude sg ds) ;;
     tmp' <- accumulate to minutes n tmp ;;
     Return ((k + 1)%nat, tmp')) /\
  deref (sign_text sg ++ ds ++ ch "m" :: c :: post) (k + 1) = Return c /\
  to_duration to (sign_text sg ++ ds ++ chars "ms") =
    Some (n <- checked (sign_magnitude sg ds) ;; accumulate to milliseconds n 0) /\
  to_duration to (sign_text sg ++ ds ++ chars "m") =
    Some (n <- checked (sign_magnitude sg ds) ;; accumulate to minutes n 0) /\
  to_duration minutes (chars "1m") = Some (Return 1) /\
  to_duration milliseconds (chars "1ms") = Some (Return 1) /\
  to_duration milliseconds (chars "1m") = Some (Return 60000) /\
  to_duration seconds (chars "1m30s") = Some (Return 90).
Proof.
  intros Hds Hlt Hc k. repeat split.
  - apply (iteration_fwd to sg ds milliseconds post); auto. discriminate.
  - apply (iteration_fwd to sg ds minutes (c :: post)); auto.
    intros _. now exists c, post.
  - replace (k + 1)%nat with (length (sign_text sg ++ ds ++ [ch "m"]) + 0)%nat
      by (unfold k; rewrite !length_app; cbn [length]; lia).
    replace (sign_text sg ++ ds ++ ch "m" :: c :: post)
      with ((sign_text sg ++ ds ++ [ch "m"]) ++ c :: post)
      by (now rewrite <- !app_assoc).
    now rewrite deref_app_r.
  - now apply (to_duration_component to sg ds milliseconds).
  - now apply (to_duration_component to sg ds minutes).
Qed.

Lemma minute_or_millisecond_witness :
  iteration seconds (chars "1m30s" ++ [0]) 5 0 0 = Return (2%nat, 60) /\
  deref (chars "1m30s" ++ [0]) 2 = Return (ch "3").
Proof.
  pose proof (minute_or_millisecond seconds NoSign (chars "1") (ch "3")
                (chars "0s" ++ [0]) 5 0
                ltac:(repeat constructor) ltac:(cbn; lia) ltac:(discriminate)) as H.
  split; [exact (proj1 (proj2 H)) | exact (proj1 (proj2 (proj2 H)))].
Defined.

(** C5. The raw count of a component is the decimal value of its digit run,
    negated exactly when the sign is [-]: the negative accumulation of lines
    93-100 followed by [n = neg ? n : -n] agrees with the sign-magnitude
    reading whenever that value fits the 64-bit tick count. At its own
    resolution a component therefore parses to that signed value; [1h-1h]
    is zero at every resolution and [-1s] is -1 second. *)
Theorem sign_handling (sg : sign) (ds rest : list Char) (last : nat) :
  Forall digit ds ->
  (length (sign_text sg) + length ds <= last)%nat ->
  run_ends sg ds rest last ->
  rep_min <= sign_magnitude sg ds <= rep_max ->
  read_count (sign_text sg ++ ds ++ rest) last 0 =
    Return ((length (sign_text sg) + length ds)%nat, sign_magnitude sg ds) /\
  (forall u, to_duration u (sign_text sg ++ ds ++ suffix u) =
             Some (Return (sign_magnitude sg ds))) /\
  (forall to, to_duration to (chars "1h-1h") = Some (Return 0)) /\
  to_duration seconds (chars "-1s") = Some (Return (-1)).
Proof.
  intros Hds Hle Hends Hfit. repeat split.
  - rewrite read_count_fwd by assumption. now rewrite checked_in.
  - intros u. rewrite to_duration_component by assumption.
    rewrite checked_in by assumption. cbn [bind]. unfold accumulate.
    rewrite duration_cast_coarser by (destruct u; reflexivity).
    replace (ticks_per u u) with 1 by (destruct u; reflexivity).
    rewrite Z.quot_1_r. cbn [bind]. unfold add_rep.
    now rewrite checked_in.
  - intros to. destruct to; reflexivity.
Qed.

Lemma sign_handling_witness :
  read_count (chars "-15s" ++ [0]) 4 0 = Return (3%nat, -15).
Proof.
  exact (proj1 (sign_handling Minus (chars "15") (chars "s" ++ [0]) 4
                  ltac:(repeat constructor) ltac:(cbn; lia)
                  ltac:(right; exists (ch "s"), [0]; repeat split; discriminate)
                  ltac:(vm_compute; split; discriminate))).
Defined.

(** C6, against the claim as stated: [500ms500ms] is 1000 milliseconds and,
    each half being truncated on its own, 0 seconds, while 1000 / 1000 = 1. *)
Lemma coarser_result_is_not_the_quotient :
  ~ (forall (text : list Char) (R1 R2 : Duration) (r1 r2 : rep),
        finer_or_equal R1 R2 ->
        to_duration R1 text = Some (Return r1) ->
        to_duration R2 text = Some (Return r2) ->
        r2 = Z.quot r1 (ticks_per R2 R1)).
Proof.
  intros H.
  specialize (H (chars "500ms500ms") milliseconds seconds 1000 0
                eq_refl eq_refl eq_refl).
  discriminate H.
Qed.

(** C6, amended. The conversion, and with it the truncation, happens once per
    component: in every pass of the loop body the amount added at the coarse
    resolution is the amount added at the fine one divided by the number of
    fine ticks per coarse tick, truncating toward zero. For a text of a single
    component that parses at both resolutions the two results are therefore
    related by that division. *)
Theorem coarser_resolution_per_component (R1 R2 : Duration) :
  finer_or_equal R1 R2 ->
  (forall mem last it tmp1 tmp2 it1 it2 t1 t2,
      iteration R1 mem last it tmp1 = Return (it1, t1) ->
      iteration R2 mem last it tmp2 = Return (it2, t2) ->
      it1 = it2 /\ t2 - tmp2 = Z.quot (t1 - tmp1) (ticks_per R2 R1)) /\
  (forall sg ds u r1 r2,
      Forall digit ds -> ds <> [] ->
      to_duration R1 (sign_text sg ++ ds ++ suffix u) = Some (Return r1) ->
      to_duration R2 (sign_text sg ++ ds ++ suffix u) = Some (Return r2) ->
      r2 = Z.quot r1 (ticks_per R2 R1)).
Proof.
  intros Hfine. split.
  - intros mem last it tmp1 tmp2 it1 it2 t1 t2. rewrite !iteration_factor.
    destruct (read_count mem last it) as [[k n]| |]; cbn [bind]; try discriminate.
    destruct (scan_unit mem k) as [[it' u]| |]; cbn [bind]; try discriminate.
    destruct (accumulate R1 u n tmp1) as [a1| |] eqn:A1; cbn [bind]; try discriminate.
    destruct (accumulate R2 u n tmp2) as [a2| |] eqn:A2; cbn [bind]; try discriminate.
    intros [= <- <-] [= <- <-]. split; [reflexivity|].
    apply accumulate_Return in A1, A2.
    destruct A1 as (v1 & C1 & ->), A2 as (v2 & C2 & ->).
    rewrite (duration_cast_coarsen R1 R2 u n v1 v2 Hfine C1 C2).
    replace (tmp1 + v1 - tmp1) with v1 by lia. lia.
  - intros sg ds u r1 r2 Hds _.
    rewrite !to_duration_component by assumption.
    destruct (checked (sign_magnitude sg ds)) as [n| |]; cbn [bind]; try discriminate.
    intros [= A1] [= A2]. apply accumulate_Return in A1, A2.
    destruct A1 as (v1 & C1 & ->), A2 as (v2 & C2 & ->).
    now rewrite (duration_cast_coarsen R1 R2 u n v1 v2 Hfine C1 C2).
Qed.

Lemma coarser_resolution_per_component_witness :
  1 = Z.quot 1500 (ticks_per seconds milliseconds).
Proof.
  exact (proj2 (coarser_resolution_per_component milliseconds seconds eq_refl)
           NoSign (chars "1500") milliseconds 1500 1
           ltac:(repeat constructor) ltac:(discriminate) eq_refl eq_refl).
Defined.

(** C7. Wherever the loop stands in front of a component whose unit suffix is
    invalid, the call ends in the one [std::invalid_argument], whatever was
    accumulated before: [12z] and [invalid] fail, and so do the upper-case
    spellings of the units. (The digit run in front of the suffix is assumed
    to fit the tick count.) *)
Theorem invalid_suffix_throws (to : Duration) (P : list Char) (p : rep)
  (sg : sign) (ds bad : list Char) :
  to_duration to P = Some (Return p) ->
  Forall digit ds ->
  invalid_suffix bad ->
  (sg = NoSign -> ds = [] -> hd 0 bad <> ch "+" /\ hd 0 bad <> ch "-") ->
  rep_min <= sign_magnitude sg ds <= rep_max ->
  to_duration to (P ++ sign_text sg ++ ds ++ bad) = Some Throw /\
  to_duration to (chars "12z") = Some Throw /\
  to_duration to (chars "invalid") = Some Throw /\
  to_duration to (chars "1n") = Some Throw /\
  to_duration to (chars "1u") = Some Throw /\
  to_duration to (chars "1nx") = Some Throw /\
  to_duration to (chars "1S") = Some Throw /\
  to_duration to (chars "1H") = Some Throw /\
  to_duration to (chars "1M") = Some Throw /\
  to_duration to (chars "1NS") = Some Throw /\
  to_duration to (chars "1Ms") = Some Throw /\
  to_duration to (chars "1mS") = Some Throw.
Proof.
  intros HP Hds Hbad Hsign Hfit.
  split; [|destruct to; repeat split].
  destruct (invalid_suffix_head bad Hbad) as (c & rest & Ebad & Hc & Hs).
  apply (component_throws to P p); auto.
  - rewrite Ebad. now destruct (sign_text sg), ds.
  - now rewrite Ebad.
  - now apply scan_unit_invalid.
Qed.

Lemma invalid_suffix_throws_witness :
  to_duration seconds (chars "1h" ++ chars "-30" ++ chars "nz") = Some Throw.
Proof.
  exact (proj1 (invalid_suffix_throws seconds (chars "1h") 3600 Minus
                  (chars "30") (chars "nz")
                  eq_refl ltac:(repeat constructor)
                  ltac:(apply n_without_s; discriminate)
                  ltac:(discriminate)
                  ltac:(vm_compute; split; discriminate))).
Defined.

(** C8. The empty text parses to a zero duration at every resolution and
    through every overload: the loop condition [it != last] fails at once. *)
Theorem empty_input_is_zero (to : Duration) :
  to_duration to (chars "") = Some (Return 0) /\
  to_duration_cstr to [0] = Some (Return 0) /\
  (forall mem i, to_duration_range to mem i i = Some (Return 0)).
Proof.
  repeat split. intros mem i. unfold to_duration_range. cbn [loop].
  now rewrite Nat.eqb_refl.
Qed.

(** C9. The call terminates. Every pass through the loop body returns a
    cursor strictly behind the one it started from (the [it--] of the minute
    case is followed by the [it++] of line 146), so the loop needs at most
    one pass per stored character: over any range, every amount of fuel above
    the length of the storage gives the same outcome. Over a string that
    outcome is a value, the [std::invalid_argument], or a signed overflow;
    nothing outside the string and its terminator is read. *)
Theorem parse_terminates (to : Duration) (str mem : list Char) (first last : nat) :
  (exists r, to_duration to str = Some r /\
             ((exists v, r = Return v) \/ r = Throw \/
              r = Undefined SignedOverflow)) /\
  (exists r, to_duration_range to mem first last = Some r /\
             forall f, (length mem - first < f)%nat ->
                       loop f to mem last first 0 = Some r) /\
  (forall it tmp it' tmp',
      iteration to mem last it tmp = Return (it', tmp') -> (it < it')%nat).
Proof.
  repeat split.
  - unfold to_duration, to_duration_range.
    destruct (loop_terminates to (str ++ [0]) (length str)
                (S (length (str ++ [0]))) 0%nat 0 ltac:(lia)) as [r Hr].
    exists r. split; [assumption|].
    pose proof (loop_string_safe to str _ 0%nat 0 r ltac:(lia) Hr) as Hs.
    destruct r as [v| |[|]]; eauto. congruence.
  - unfold to_duration_range.
    destruct (loop_terminates to mem last (S (length mem)) first 0 ltac:(lia))
      as [r Hr].
    exists r. split; [assumption|]. intros f Hf.
    destruct (loop_terminates to mem last f first 0 Hf) as [r' Hr'].
    rewrite Hr'. f_equal. eapply loop_fuel_det; eassumption.
  - intros it tmp it' tmp' H. now apply iteration_advances in H.
Qed.

Lemma parse_terminates_witness :
  iteration seconds (chars "1m30s" ++ [0]) 5 0 0 = Return (2%nat, 60) /\
  (0 < 2)%nat.
Proof.
  split; [reflexivity|].
  exact (proj2 (proj2 (parse_terminates seconds (chars "1m30s")
                         (chars "1m30s" ++ [0]) 0 5))
           0%nat 0 2%nat 60 eq_refl).
Defined.

(** C10. Neither the [switch] on [*it] nor the lookahead [*(++it)] is guarded
    by [it != last]. Over a range whose storage ends at [last], a text that
    stops in the middle of a component (after a sign, after digits, or after
    [n], [u] or [m]) makes the scanner dereference [last]: the read is
    outside the storage. Where an element can be read at [last], the outcome
    is decided by that element and not by a test for the end of the input.
    In a [std::basic_string] the terminator is there: a trailing [m] is a
    minute, the other endings throw because the terminator is no unit and
    no [s]. Any other character but [s] behind [1m] gives one minute as
    well, while [s] makes the scanner read a millisecond and run past
    [last]; an [h] behind [12] is taken for the unit. *)
Theorem read_at_end_of_range (to : Duration) (P : list Char) (p : rep)
  (sg : sign) (ds l : list Char) :
  to_duration to P = Some (Return p) ->
  Forall digit ds ->
  l = [] \/ l = [ch "n"] \/ l = [ch "u"] \/ l = [ch "m"] ->
  sign_text sg ++ ds ++ l <> [] ->
  rep_min <= sign_magnitude sg ds <= rep_max ->
  to_duration_range to (P ++ sign_text sg ++ ds ++ l) 0
    (length (P ++ sign_text sg ++ ds ++ l)) = Some (Undefined OutOfRange) /\
  (l <> [ch "m"] ->
   to_duration to (P ++ sign_text sg ++ ds ++ l) = Some Throw) /\
  (l = [ch "m"] ->
   to_duration to (P ++ sign_text sg ++ ds ++ l) =
   Some (accumulate to minutes (sign_magnitude sg ds) p)) /\
  (forall c, c <> ch "s" ->
     to_duration_range minutes (chars "1m" ++ [c]) 0 2 = Some (Return 1)) /\
  to_duration minutes (chars "1m") = Some (Return 1) /\
  to_duration_range minutes (chars "1m" ++ [ch "s"]) 0 2 =
    Some (Undefined OutOfRange) /\
  to_duration_range hours (chars "12" ++ [0]) 0 2 = Some Throw /\
  to_duration_range hours (chars "12" ++ [ch "h"]) 0 2 =
    Some (Undefined OutOfRange).
Proof.
  intros HP Hds Hl Hne Hfit.
  split; [|split; [|split; [|split; [|repeat split]]]].
  - set (tail := sign_text sg ++ ds ++ l) in *.
    rewrite length_app.
    apply (to_duration_range_after to P p tail (length tail) 1); [assumption| |].
    + intros _. apply component_not_s_head; [assumption|].
      intros -> ->. cbn [sign_text app] in tail.
      destruct Hl as [-> | [-> | [-> | ->]]]; [now elim Hne|..];
        eexists _, _; (split; [reflexivity | discriminate]).
    + cbn [loop].
      assert (Hlen : length tail =
                     (length (sign_text sg) + length ds + length l)%nat)
        by (unfold tail; rewrite !length_app; lia).
      destruct (Nat.eqb_spec 0 (length tail)) as [E|_].
      { destruct tail; [now elim Hne | discriminate E]. }
      unfold tail. rewrite iteration_scan; auto; try (fold tail; lia).
      * now destruct Hl as [-> | [-> | [-> | ->]]].
      * destruct Hl as [-> | [-> | [-> | ->]]];
          [left | right; eexists _, _ ..];
          try (split; [reflexivity|]; split; [reflexivity|];
               intros; split; discriminate).
        split; [fold tail; rewrite Hlen; cbn [length]; lia|].
        unfold tail in Hne. now rewrite app_nil_r in Hne.
  - intros Hm. apply (component_throws to P p); auto.
    + intros _ _. destruct Hl as [-> | [-> | [-> | ->]]]; split; discriminate.
    + now destruct Hl as [-> | [-> | [-> | ->]]].
    + destruct Hl as [-> | [-> | [-> | ->]]]; try reflexivity. now elim Hm.
  - intros ->. change [ch "m"] with (suffix minutes).
    rewrite (component_after to P p sg ds minutes HP Hds)
      by (intros (_ & _ & _ & E); discriminate E).
    now rewrite checked_in by assumption.
  - intros c Hc. apply Z.eqb_neq in Hc. reveal_chars.
    unfold to_duration_range. cbn. now rewrite Hc.
Qed.

Lemma read_at_end_of_range_witness :
  to_duration_range seconds (chars "1h" ++ chars "-30" ++ chars "m") 0 6 =
  Some (Undefined OutOfRange).
Proof.
  exact (proj1 (read_at_end_of_range seconds (chars "1h") 3600 Minus
                  (chars "30") (chars "m")
                  eq_refl ltac:(repeat constructor)
                  ltac:(right; right; right; reflexivity)
                  ltac:(discriminate)
                  ltac:(vm_compute; split; discriminate))).
Defined.

(** * Further properties of the code *)

(** ** Components of a text that parses *)

Lemma duration_cast_convert to from n v :
  duration_cast to from n = Return v -> v = convert to from n.
Proof.
  unfold duration_cast, convert, mul_rep.
  destruct (fst (ratio_divide (period from) (period to)) =? 1) eqn:N;
    destruct (snd (ratio_divide (period from) (period to)) =? 1) eqn:D;
    cbn [andb bind];
    try apply Z.eqb_eq in N; try apply Z.eqb_eq in D;
    rewrite ?N, ?D, ?Z.mul_1_r, ?Z.quot_1_r.
  - now intros [= <-].
  - now intros [= <-].
  - intros H. now apply checked_Return in H.
  - destruct (checked _) as [m| |] eqn:C; cbn [bind]; try discriminate.
    apply checked_Return in C. destruct C as [-> _]. now intros [= <-].
Qed.

(** Over a string, a pass that returns has read the spelling of one component
    and added its converted count. *)
Lemma iteration_component to X tmp it' tmp' :
  iteration to (X ++ [0]) (length X) 0 tmp = Return (it', tmp') ->
  exists c post,
    X = spelling c ++ post /\ Forall digit (c_digits c) /\
    it' = length (spelling c) /\
    rep_min <= raw c <= rep_max /\
    tmp' = tmp + convert to (c_unit c) (raw c).
Proof.
  intros H.
  destruct (iteration_inv _ _ _ _ _ H) as (sg & ds & u & post & -> & Hds & Hm & ->).
  destruct (suffix_head u) as (c0 & tl & Eu & _).
  rewrite <- !app_assoc in H.
  rewrite iteration_fwd in H; auto.
  2:{ rewrite !length_app, Eu. cbn [length]. lia. }
  destruct (checked (sign_magnitude sg ds)) as [n| |] eqn:C; cbn [bind] in H;
    try discriminate.
  apply checked_Return in C. destruct C as [-> Hfit].
  destruct (accumulate to u _ tmp) as [t| |] eqn:A; cbn [bind] in H;
    try discriminate.
  injection H as <-. apply accumulate_Return in A.
  destruct A as (v & Hv & ->). apply duration_cast_convert in Hv. subst v.
  exists {| c_sign := sg; c_digits := ds; c_unit := u |}, post.
  unfold spelling, raw. cbn [c_sign c_digits c_unit].
  rewrite <- !app_assoc, !length_app. repeat split; auto; lia.
Qed.

(** A run over a string that returns has read, from the cursor on, the
    spellings of a list of components and added their converted counts. *)
Lemma loop_components to A : forall f it tmp v,
  (it <= length A)%nat ->
  loop f to (A ++ [0]) (length A) it tmp = Some (Return v) ->
  exists cs,
    skipn it A = flat_map spelling cs /\
    Forall (fun c => Forall digit (c_digits c)) cs /\
    Forall (fun c => rep_min <= raw c <= rep_max) cs /\
    v = tmp + total to cs.
Proof.
  induction f as [|f IH]; intros it tmp v Hit; cbn [loop];
    destruct (Nat.eqb_spec it (length A)) as [->|Hne]; try discriminate;
    try (intros [= <-]; exists []; rewrite skipn_all; cbn;
         repeat split; auto; lia).
  rewrite iteration_from by lia.
  assert (HX : length (skipn it A) = (length A - it)%nat) by apply length_skipn.
  rewrite <- HX.
  destruct (iteration to (skipn it A ++ [0]) (length (skipn it A)) 0 tmp)
    as [[k tmp']| |] eqn:I; cbn [shift bind]; try discriminate.
  apply iteration_component in I.
  destruct I as (c & post & EX & Hds & -> & Hfit & ->).
  assert (Hk : (length (spelling c) <= length (skipn it A))%nat)
    by (rewrite EX, length_app; lia).
  intros H. apply IH in H; [|lia].
  destruct H as (cs & Ecs & Hall & Hfits & ->).
  exists (c :: cs). cbn [flat_map total fold_right]. repeat split; auto.
  - rewrite <- Ecs, EX. f_equal.
    rewrite Nat.add_comm, <- skipn_skipn, EX.
    replace (length (spelling c)) with (length (spelling c) + 0)%nat at 1 by lia.
    now rewrite skipn_app_r.
  - fold (total to cs). lia.
Qed.

Lemma spelling_alphabet c :
  Forall digit (c_digits c) -> Forall (fun x => alphabet x = true) (spelling c).
Proof.
  intros Hds. unfold spelling. rewrite !Forall_app. repeat split.
  - destruct (c_sign c); repeat constructor.
  - eapply Forall_impl; [|exact Hds]. intros x Hx. unfold alphabet.
    unfold digit in Hx. now rewrite Hx.
  - destruct (c_unit c); repeat constructor.
Qed.

Lemma flat_map_spelling_alphabet cs :
  Forall (fun c => Forall digit (c_digits c)) cs ->
  Forall (fun x => alphabet x = true) (flat_map spelling cs).
Proof.
  induction 1 as [|c cs Hc _ IH]; cbn [flat_map]; [constructor|].
  rewrite Forall_app. split; [now apply spelling_alphabet | exact IH].
Qed.

Lemma to_duration_components to text v :
  to_duration to text = Some (Return v) ->
  exists cs,
    text = flat_map spelling cs /\
    Forall (fun c => Forall digit (c_digits c)) cs /\
    Forall (fun c => rep_min <= raw c <= rep_max) cs /\
    v = total to cs.
Proof.
  intros H. apply to_duration_loop in H. destruct H as [f H].
  apply loop_components in H; [|lia].
  destruct H as (cs & E & Hall & Hfit & ->). exists cs. now repeat split.
Qed.

(** Starting a run that returns or throws from a larger accumulator changes
    nothing but the value returned, unless an addition leaves the range on
    the way. *)
Lemma loop_offset to mem last a : forall f it tmp r,
  loop f to mem last it tmp = Some r ->
  (forall e, r <> Undefined e) ->
  loop f to mem last it (a + tmp) = Some (offset a r) \/
  loop f to mem last it (a + tmp) = Some (Undefined SignedOverflow).
Proof.
  induction f as [|f IH]; intros it tmp r; cbn [loop];
    destruct (it =? last)%nat; try discriminate;
    try (intros [= <-] _; now left).
  rewrite !iteration_factor.
  destruct (read_count mem last it) as [[it2 n]| |]; cbn [bind];
    try (intros [= <-] Hr; (now left) || now elim (Hr u)).
  destruct (scan_unit mem it2) as [[it' u]| |]; cbn [bind];
    try (intros [= <-] Hr; (now left) || now elim (Hr u)).
  unfold accumulate.
  destruct (duration_cast to u n) as [v| |]; cbn [bind];
    try (intros [= <-] Hr; (now left) || now elim (Hr u0)).
  unfold add_rep.
  destruct (checked_cases (tmp + v)) as [[_ ->]|[_ ->]]; cbn [bind];
    [|intros [= <-] Hr; now elim (Hr SignedOverflow)].
  destruct (checked_cases (a + tmp + v)) as [[_ ->]|[_ ->]]; cbn [bind];
    [|intros _ _; now right].
  replace (a + tmp + v) with (a + (tmp + v)) by lia. apply IH.
Qed.

(** X1. Behind a text [A] that parses to [a], a text [B] that returns or
    throws on its own does the same with [a] added to its value: the
    concatenation returns the sum of the two values, or throws where [B]
    throws, unless adding [a] overflows the tick count. The one seam to
    respect: [A] ending in [m] directly in front of a [B] starting with
    [s]. *)
Theorem concatenation_continues (to : Duration) (A B : list Char) (a : rep)
  (r : result rep) :
  to_duration to A = Some (Return a) ->
  to_duration to B = Some r ->
  (forall e, r <> Undefined e) ->
  ~ (last A 0 = ch "m" /\ hd 0 B = ch "s") ->
  to_duration to (A ++ B) = Some (offset a r) \/
  to_duration to (A ++ B) = Some (Undefined SignedOverflow).
Proof.
  intros HA HB Hr Hseam.
  apply to_duration_loop in HB. destruct HB as [fB HB].
  assert (Hs : seam A (B ++ [0])).
  { intros Hm. destruct B as [|c B'].
    - exists 0, []. split; [reflexivity | discriminate].
    - exists c, (B' ++ [0]). split; [reflexivity|]. cbn [hd] in Hseam. tauto. }
  destruct (loop_offset to _ _ a _ _ _ _ HB Hr) as [H|H]; [left | right];
    rewrite Z.add_0_r in H;
    now apply (to_duration_after to A a B fB).
Qed.

Lemma concatenation_continues_witness :
  to_duration seconds (chars "1h" ++ chars "-30m") = Some (Return (3600 + -1800)) \/
  to_duration seconds (chars "1h" ++ chars "-30m") = Some (Undefined SignedOverflow).
Proof.
  exact (concatenation_continues seconds (chars "1h") (chars "-30m") 3600
           (Return (-1800)) eq_refl eq_refl
           ltac:(discriminate)
           ltac:(intros [H _]; vm_compute in H; discriminate H)).
Defined.

(** X2. A text that parses is, character for character, a sequence of
    components [[+-]?\d*(ns|us|ms|s|m|h)], each with a count that fits the
    tick count, and the value returned is the sum of the counts, each
    converted to the target on its own (multiplied, or divided with
    truncation toward zero). *)
Theorem parsed_text_is_components (to : Duration) (text : list Char) (v : rep) :
  to_duration to text = Some (Return v) ->
  exists cs,
    text = flat_map spelling cs /\
    Forall (fun c => Forall digit (c_digits c)) cs /\
    Forall (fun c => rep_min <= raw c <= rep_max) cs /\
    v = total to cs.
Proof. apply to_duration_components. Qed.

Lemma parsed_text_is_components_witness :
  exists cs,
    chars "1h33m7s" = flat_map spelling cs /\
    Forall (fun c => Forall digit (c_digits c)) cs /\
    Forall (fun c => rep_min <= raw c <= rep_max) cs /\
    5587 = total seconds cs.
Proof.
  exact (parsed_text_is_components seconds (chars "1h33m7s") 5587 eq_refl).
Defined.

(** X3. A text that parses consists of digits, signs and the letters [n],
    [u], [m], [s], [h] only: white space, a decimal point, an upper-case
    letter or an embedded terminator anywhere in the text rules out a
    value. *)
Theorem parsed_text_alphabet (to : Duration) (text : list Char) (v : rep) :
  to_duration to text = Some (Return v) ->
  Forall (fun c => alphabet c = true) text.
Proof.
  intros H. apply to_duration_components in H.
  destruct H as (cs & -> & Hall & _). now apply flat_map_spelling_alphabet.
Qed.

Lemma parsed_text_alphabet_witness :
  Forall (fun c => alphabet c = true) (chars "1h33m7s").
Proof.
  exact (parsed_text_alphabet seconds (chars "1h33m7s") 5587 eq_refl).
Defined.

(** ** Texts of the documented format *)

Lemma add_components_total to cs : forall tmp v,
  add_components to cs tmp = Return v -> v = tmp + total to cs.
Proof.
  induction cs as [|c cs IH]; intros tmp v; cbn [add_components total fold_right].
  - intros [= <-]. lia.
  - destruct (checked (raw c)) as [n| |] eqn:C; cbn [bind]; try discriminate.
    apply checked_Return in C. destruct C as [-> _].
    destruct (accumulate to (c_unit c) (raw c) tmp) as [t| |] eqn:A; cbn [bind];
      try discriminate.
    apply accumulate_Return in A. destruct A as (w & Hw & ->).
    apply duration_cast_convert in Hw. subst w.
    intros H. apply IH in H. fold (total to cs). lia.
Qed.

(** The run over the spellings of components that all have a digit is the
    arithmetic of [add_components], overflow included. *)
Lemma loop_add_components to : forall cs tmp f,
  Forall (fun c => Forall digit (c_digits c) /\ c_digits c <> []) cs ->
  (length cs <= f)%nat ->
  loop f to (flat_map spelling cs ++ [0]) (length (flat_map spelling cs)) 0 tmp =
  Some (add_components to cs tmp).
Proof.
  induction cs as [|c cs IH]; intros tmp f Hcs Hf.
  - cbn. now destruct f.
  - inversion Hcs as [|? ? [Hds Hne] Hcs']; subst.
    destruct f as [|f]; [cbn [length] in Hf; lia|].
    cbn [flat_map loop add_components].
    destruct (suffix_head (c_unit c)) as (c0 & tl & Eu & _).
    assert (Hpos : (length (sign_text (c_sign c)) + length (c_digits c) <
                    length (spelling c ++ flat_map spelling cs))%nat)
      by (unfold spelling; rewrite !length_app, Eu; cbn [length]; lia).
    destruct (Nat.eqb_spec 0 (length (spelling c ++ flat_map spelling cs)))
      as [E|_]; [lia|].
    unfold spelling at 1. rewrite <- !app_assoc.
    rewrite iteration_fwd; auto.
    2:{ intros _. destruct cs as [|c2 cs2].
        - exists 0, []. split; [reflexivity | discriminate].
        - inversion Hcs' as [|? ? [Hds2 Hne2] _]; subst.
          cbn [flat_map]. unfold spelling at 1. rewrite <- !app_assoc.
          apply component_not_s_head; [assumption|]. intros _ E. contradiction. }
    fold (raw c).
    destruct (checked (raw c)) as [n| |]; cbn [bind]; try reflexivity.
    destruct (accumulate to (c_unit c) n tmp) as [t| |]; cbn [bind];
      try reflexivity.
    rewrite <- (IH t f Hcs' ltac:(cbn [length] in Hf; lia)).
    rewrite <- (loop_shift to (spelling c) (flat_map spelling cs ++ [0])
                  (length (flat_map spelling cs)) f 0%nat t).
    unfold spelling. rewrite <- !app_assoc, !length_app, !Nat.add_0_r.
    f_equal; lia.
Qed.

(** X4. A text of the documented format [([+-]?\d+(ns|us|ms|s|m|h))*], every
    component with at least one digit, is read component by component: the
    call does exactly the arithmetic of [add_components], the counts
    converted one by one and added in order, overflow included; when that
    returns, the value is the sum of the converted counts. *)
Theorem documented_text_parses (to : Duration) (cs : list component) :
  Forall (fun c => Forall digit (c_digits c) /\ c_digits c <> []) cs ->
  to_duration to (flat_map spelling cs) = Some (add_components to cs 0) /\
  (forall v, add_components to cs 0 = Return v -> v = total to cs).
Proof.
  intros Hcs. split.
  - apply (to_duration_fuel _ _ (length cs)). now apply loop_add_components.
  - intros v H. now apply add_components_total in H.
Qed.

Lemma documented_text_parses_witness :
  to_duration seconds (chars "1h-30m") = Some (Return 1800).
Proof.
  exact (proj1 (documented_text_parses seconds
                  [ {| c_sign := NoSign; c_digits := chars "1"; c_unit := hours |};
                    {| c_sign := Minus; c_digits := chars "30"; c_unit := minutes |} ]
                  ltac:(repeat constructor; discriminate))).
Defined.

(** ** One component: coarser targets, signs, bounds *)

Lemma quot_in_rep n k :
  0 < k -> rep_min <= n <= rep_max -> rep_min <= Z.quot n k <= rep_max.
Proof.
  intros Hk Hn. unfold rep_min, rep_max in *.
  Z.to_euclidean_division_equations. nia.
Qed.

(** X5. A component parsed at a target coarser than its unit is divided by the
    number of unit ticks per target tick and truncated toward zero, for
    either sign: [1500ms] is 1 second and [-1500ms] is -1 second. *)
Theorem coarser_target_truncates (to u : Duration) (sg : sign) (ds : list Char) :
  Forall digit ds ->
  finer_or_equal u to ->
  rep_min <= sign_magnitude sg ds <= rep_max ->
  to_duration to (sign_text sg ++ ds ++ suffix u) =
  Some (Return (Z.quot (sign_magnitude sg ds) (ticks_per to u))).
Proof.
  intros Hds Hcoarse Hfit.
  rewrite to_duration_component by assumption.
  rewrite checked_in by assumption. cbn [bind]. unfold accumulate.
  rewrite duration_cast_coarser by assumption. cbn [bind]. unfold add_rep.
  rewrite Z.add_0_l. apply f_equal, checked_in, quot_in_rep; [|assumption].
  apply ticks_per_pos.
Qed.

Lemma coarser_target_truncates_witness :
  to_duration seconds (chars "-1500ms") = Some (Return (-1)).
Proof.
  exact (coarser_target_truncates seconds milliseconds Minus (chars "1500")
           ltac:(repeat constructor) eq_refl
           ltac:(vm_compute; split; discriminate)).
Defined.

Lemma ratio_positive to from :
  0 < fst (ratio_divide (period from) (period to)) /\
  0 < snd (ratio_divide (period from) (period to)).
Proof. destruct to, from; vm_compute; auto. Qed.

Lemma duration_cast_opp to from n v :
  0 <= n -> duration_cast to from n = Return v ->
  rep_min <= v <= rep_max ->
  duration_cast to from (- n) = Return (- v).
Proof.
  intros Hn. pose proof (ratio_positive to from) as [Hnum Hden].
  unfold duration_cast, mul_rep.
  set (num := fst (ratio_divide (period from) (period to))) in *.
  set (den := snd (ratio_divide (period from) (period to))) in *.
  destruct ((num =? 1) && (den =? 1)); [now intros [= <-]|].
  destruct (den =? 1).
  - intros H Hv. apply checked_Return in H. destruct H as [-> _].
    rewrite Z.mul_opp_l. apply checked_in. unfold rep_min, rep_max in *. nia.
  - destruct (num =? 1).
    + intros [= <-] _. now rewrite Z.quot_opp_l by lia.
    + destruct (checked (n * num)) as [m| |] eqn:C; cbn [bind]; try discriminate.
      apply checked_Return in C. destruct C as [-> Hm]. intros [= <-] _.
      assert (0 <= n * num) by nia.
      rewrite Z.mul_opp_l, checked_in by (unfold rep_min, rep_max in *; lia).
      cbn [bind]. now rewrite Z.quot_opp_l by lia.
Qed.

(** X6. The sign is symmetric at every target: where a component without sign
    parses to [r], the same component with [-] in front parses to [- r]
    (truncation is toward zero, so rounding does not depend on the sign) and
    with [+] in front to [r]. The converse fails at the lower bound: [-2^63]
    is read, [2^63] is not. *)
Theorem sign_is_symmetric (to u : Duration) (ds : list Char) (r : rep) :
  Forall digit ds ->
  to_duration to (ds ++ suffix u) = Some (Return r) ->
  to_duration to (ch "-" :: ds ++ suffix u) = Some (Return (- r)) /\
  to_duration to (ch "+" :: ds ++ suffix u) = Some (Return r) /\
  to_duration nanoseconds (chars "-9223372036854775808ns") =
    Some (Return rep_min) /\
  to_duration nanoseconds (chars "9223372036854775808ns") =
    Some (Undefined SignedOverflow).
Proof.
  intros Hds H.
  pose proof (decimal_nonneg ds Hds) as Hpos.
  change (ds ++ suffix u) with (sign_text NoSign ++ ds ++ suffix u) in H.
  change (ch "-" :: ds ++ suffix u) with (sign_text Minus ++ ds ++ suffix u).
  change (ch "+" :: ds ++ suffix u) with (sign_text Plus ++ ds ++ suffix u).
  rewrite (to_duration_component to NoSign) in H by assumption.
  rewrite (to_duration_component to Minus), (to_duration_component to Plus)
    by assumption.
  cbn [sign_magnitude] in *.
  destruct (checked (decimal ds)) as [n| |] eqn:C; cbn [bind] in H;
    try discriminate.
  apply checked_Return in C. destruct C as [-> Hfit].
  injection H as H. split; [|split; [|split; reflexivity]].
  - rewrite checked_in by (unfold rep_min, rep_max in *; lia). cbn [bind].
    unfold accumulate, add_rep in *.
    destruct (duration_cast to u (decimal ds)) as [v| |] eqn:D; cbn [bind] in H;
      try discriminate.
    apply checked_Return in H. destruct H as [-> Hr]. rewrite Z.add_0_l in *.
    rewrite (duration_cast_opp to u _ v Hpos D Hr). cbn [bind].
    rewrite Z.add_0_l. f_equal. apply checked_in.
    apply duration_cast_convert in D. unfold convert in D.
    pose proof (ratio_positive to u) as [Hnum Hden].
    assert (0 <= v).
    { subst v. apply Z.quot_pos; nia. }
    unfold rep_min, rep_max in *. lia.
  - cbn [bind]. now rewrite H.
Qed.

Lemma sign_is_symmetric_witness :
  to_duration seconds (ch "-" :: chars "1500" ++ suffix milliseconds) =
  Some (Return (- 1)).
Proof.
  exact (proj1 (sign_is_symmetric seconds milliseconds (chars "1500") 1
                  ltac:(repeat constructor) eq_refl)).
Defined.

(** X7. The bounds of the arithmetic. A digit run whose signed value does not
    fit the 64-bit tick count, or whose product with the ratio to a finer
    target does not, takes the computation out of range: a signed overflow,
    which C++ leaves undefined, at every target. *)
Theorem out_of_range_overflows (to u : Duration) (sg : sign) (ds : list Char) :
  Forall digit ds ->
  ~ rep_min <= sign_magnitude sg ds <= rep_max \/
  (finer_or_equal to u /\
   ~ rep_min <= sign_magnitude sg ds * ticks_per u to <= rep_max) ->
  to_duration to (sign_text sg ++ ds ++ suffix u) =
  Some (Undefined SignedOverflow).
Proof.
  intros Hds H. rewrite to_duration_component by assumption.
  destruct (checked_cases (sign_magnitude sg ds)) as [[Hfit ->]|[_ ->]];
    [|reflexivity].
  destruct H as [H|[Hfine H]]; [contradiction|].
  cbn [bind]. unfold accumulate.
  rewrite duration_cast_finer by assumption.
  destruct (checked_cases (sign_magnitude sg ds * ticks_per u to))
    as [[Hf _]|[_ ->]]; [contradiction | reflexivity].
Qed.

Lemma out_of_range_overflows_witness :
  to_duration nanoseconds (chars "9223372036854775807s") =
  Some (Undefined SignedOverflow).
Proof.
  exact (out_of_range_overflows nanoseconds seconds NoSign
           (chars "9223372036854775807")
           ltac:(repeat constructor)
           ltac:(right; split; [reflexivity | vm_compute; intros [_ H]; now apply H])).
Defined.

(** ** The overloads *)

Lemma c_str_app s junk :
  Forall (fun c => c <> 0) s -> c_str (s ++ 0 :: junk) = s.
Proof.
  induction 1 as [|c s Hc _ IH]; cbn [app c_str]; [reflexivity|].
  apply Z.eqb_neq in Hc. now rewrite Hc, IH.
Qed.

(** X8. The [const Char*] overloads (5)-(7) read the characters in front of
    the first terminator and nothing behind it: on them they agree with
    the [std::basic_string] overloads. A [std::basic_string] that holds the
    same characters with the terminator embedded never yields a value. *)
Theorem c_string_overload (to : Duration) (s junk : list Char) :
  Forall (fun c => c <> 0) s ->
  to_duration_cstr to (s ++ 0 :: junk) = to_duration to s /\
  (forall v, to_duration to (s ++ 0 :: junk) <> Some (Return v)).
Proof.
  intros Hs. split.
  - unfold to_duration_cstr. now rewrite c_str_app.
  - intros v H. apply to_duration_components in H.
    destruct H as (cs & E & Hall & _).
    apply flat_map_spelling_alphabet in Hall. rewrite <- E in Hall.
    apply Forall_app in Hall. destruct Hall as [_ Hall].
    inversion Hall as [|? ? H0 _]. discriminate H0.
Qed.

Lemma c_string_overload_witness :
  to_duration_cstr seconds (chars "1h" ++ 0 :: chars "30m") =
  to_duration seconds (chars "1h").
Proof.
  exact (proj1 (c_string_overload seconds (chars "1h") (chars "30m")
                  ltac:(repeat constructor; discriminate))).
Defined.

Lemma deref_app_lt X Y k : (k < length X)%nat -> deref (X ++ Y) k = deref X k.
Proof. intros H. unfold deref. now rewrite nth_error_app1. Qed.

(** The inner loop never looks at what is stored at [last] or behind it. *)
Lemma digits_loop_agree Y R1 R2 : forall it n,
  digits_loop (Y ++ R1) it (it + length Y) n =
  digits_loop (Y ++ R2) it (it + length Y) n.
Proof.
  induction Y as [|c Y IH]; intros it n; cbn [app length].
  - rewrite Nat.add_0_r.
    destruct R1, R2; cbn [digits_loop]; now rewrite Nat.eqb_refl.
  - cbn [digits_loop].
    destruct (Nat.eqb_spec it (it + S (length Y))) as [E|_]; [lia|].
    destruct (is_digit c); [|reflexivity].
    destruct (mul_rep n 10) as [m| |]; cbn [bind]; try reflexivity.
    destruct (sub_rep m _) as [n'| |]; cbn [bind]; try reflexivity.
    replace (it + S (length Y))%nat with (S it + length Y)%nat by lia.
    apply IH.
Qed.

Lemma read_count_agree X R1 R2 :
  X <> [] ->
  read_count (X ++ R1) (length X) 0 = read_count (X ++ R2) (length X) 0.
Proof.
  intros HX. destruct X as [|x X]; [congruence|].
  unfold read_count. cbn [app deref nth_error bind length].
  destruct ((x =? ch "+") || (x =? ch "-")); cbn [skipn].
  - pose proof (digits_loop_agree X R1 R2 1 0) as E.
    cbn [Nat.add] in E. now rewrite E.
  - pose proof (digits_loop_agree (x :: X) R1 R2 0 0) as E.
    cbn [Nat.add app length] in E. now rewrite E.
Qed.

Lemma read_count_bound X it2 n :
  read_count (X ++ [0]) (length X) 0 = Return (it2, n) -> (it2 <= length X)%nat.
Proof.
  intros R. destruct X as [|x X].
  - cbn in R. injection R as <- _. cbn. lia.
  - unfold read_count in R. cbn [app deref nth_error bind] in R.
    match type of R with
    | bind ?d _ = _ => destruct d as [[k n0]| |] eqn:D
    end; cbn [bind] in R; try discriminate.
    assert (k = it2) as ->
      by (destruct (x =? ch "-"); [|destruct (neg_rep n0)]; cbn [bind] in R;
          congruence).
    apply digits_loop_inv in D;
      [| destruct ((x =? ch "+") || (x =? ch "-")); cbn [length]; lia
       | lia | unfold rep_min; lia].
    destruct D as (ds & post & _ & _ & _ & Hle & _). exact Hle.
Qed.

Lemma scan_unit_agree X c junk it :
  (it <= length X)%nat -> unit_letter c = false ->
  scan_unit (X ++ c :: junk) it = scan_unit (X ++ [0]) it.
Proof.
  intros Hle Hc. unfold unit_letter in Hc.
  repeat (apply orb_false_iff in Hc; destruct Hc as [Hc ?]).
  assert (D : forall R k, deref (X ++ R) (length X + k) = deref R k)
    by (intros; apply deref_app_r).
  unfold scan_unit.
  destruct (Nat.eq_dec it (length X)) as [->|Hne].
  - pose proof (D (c :: junk) 0%nat) as D1. pose proof (D [0] 0%nat) as D2.
    rewrite Nat.add_0_r in D1, D2. rewrite D1, D2.
    cbn [deref nth_error bind].
    repeat match goal with H : (c =? _) = false |- _ => rewrite H; clear H end.
    reflexivity.
  - rewrite (deref_app_lt X (c :: junk) it), (deref_app_lt X [0] it) by lia.
    destruct (deref X it) as [x| |]; cbn [bind]; try reflexivity.
    destruct (Nat.eq_dec (S it) (length X)) as [E|Hne'].
    + pose proof (D (c :: junk) 0%nat) as D1. pose proof (D [0] 0%nat) as D2.
      rewrite Nat.add_0_r in D1, D2. rewrite E, D1, D2.
      cbn [deref nth_error bind].
      repeat match goal with H : (c =? _) = false |- _ => rewrite H; clear H end.
      reflexivity.
    + now rewrite (deref_app_lt X (c :: junk) (S it)),
        (deref_app_lt X [0] (S it)) by lia.
Qed.

Lemma iteration_agree to X c junk tmp :
  X <> [] -> unit_letter c = false ->
  iteration to (X ++ c :: junk) (length X) 0 tmp =
  iteration to (X ++ [0]) (length X) 0 tmp.
Proof.
  intros HX Hc. rewrite !iteration_factor.
  rewrite (read_count_agree X (c :: junk) [0] HX).
  destruct (read_count (X ++ [0]) (length X) 0) as [[it2 n]| |] eqn:R;
    cbn [bind]; try reflexivity.
  apply read_count_bound in R. now rewrite scan_unit_agree.
Qed.

Lemma loop_agree to A c junk :
  unit_letter c = false ->
  forall f it tmp,
    (it <= length A)%nat ->
    loop f to (A ++ c :: junk) (length A) it tmp =
    loop f to (A ++ [0]) (length A) it tmp.
Proof.
  intros Hc. induction f as [|f IH]; intros it tmp Hit; cbn [loop];
    destruct (Nat.eqb_spec it (length A)) as [->|Hne]; try reflexivity.
  rewrite (iteration_from to A (c :: junk) (length A) it),
    (iteration_from to A [0] (length A) it) by lia.
  assert (HX : length (skipn it A) = (length A - it)%nat) by apply length_skipn.
  rewrite <- HX.
  assert (HXne : skipn it A <> [])
    by (intros E; rewrite E in HX; cbn in HX; lia).
  rewrite iteration_agree by assumption.
  destruct (iteration to (skipn it A ++ [0]) (length (skipn it A)) 0 tmp)
    as [[k tmp']| |] eqn:I; cbn [shift bind]; try reflexivity.
  apply iteration_prefix with (R := [0]) (last2 := length (skipn it A)) in I;
    [|lia|intros _; exists 0, []; split; [reflexivity | discriminate]].
  apply IH. lia.
Qed.

(** X9. The iterator-range overload (1) on a range inside a larger buffer:
    what is stored in front of [first] does not matter, and as long as the
    character stored at [last] is none of [n], [u], [m], [s], [h], neither
    does what is stored at [last] and behind it. The outcome is that of the
    string overload on a copy of the range. *)
Theorem range_matches_string (to : Duration) (pre str : list Char) (c : Char)
  (junk : list Char) :
  unit_letter c = false ->
  to_duration_range to (pre ++ str ++ c :: junk) (length pre)
    (length pre + length str) = to_duration to str.
Proof.
  intros Hc. unfold to_duration at 1. unfold to_duration_range at 2.
  set (f := S (length (str ++ [0]))).
  destruct (loop_terminates to (str ++ [0]) (length str) f 0%nat 0
              ltac:(unfold f; lia)) as [r Hr].
  rewrite Hr. apply (to_duration_range_fuel _ _ _ _ f).
  replace (length pre) with (length pre + 0)%nat at 2 by lia.
  rewrite loop_shift, loop_agree; [exact Hr | exact Hc | lia].
Qed.

Lemma range_matches_string_witness :
  to_duration_range seconds (chars "t=1h30m;x") 2 7 =
  to_duration seconds (chars "1h30m").
Proof.
  exact (range_matches_string seconds (chars "t=") (chars "1h30m") (ch ";")
           (chars "x") eq_refl).
Defined.

(** ** Several components at a coarser target *)

Lemma convert_coarsen_error R1 R2 u n :
  finer_or_equal R1 R2 ->
  Z.abs (convert R1 u n - ticks_per R2 R1 * convert R2 u n) <= ticks_per R2 R1 - 1.
Proof.
  unfold finer_or_equal, ticks_per, convert. intros Hfine.
  destruct R1, R2; try discriminate Hfine; clear Hfine; destruct u;
    reveal_ratios; cbn [fst snd];
    Z.to_euclidean_division_equations; lia.
Qed.

Lemma total_coarsen_error R1 R2 cs :
  finer_or_equal R1 R2 ->
  Z.abs (total R1 cs - ticks_per R2 R1 * total R2 cs) <=
  (ticks_per R2 R1 - 1) * Z.of_nat (length cs).
Proof.
  intros Hfine. induction cs as [|c cs IH]; cbn [total fold_right length].
  - rewrite Z.mul_0_r. cbn. lia.
  - fold (total R1 cs) (total R2 cs).
    pose proof (convert_coarsen_error R1 R2 (c_unit c) (raw c) Hfine) as Hc.
    lia.
Qed.

Lemma to_duration_documented to cs v :
  Forall (fun c => Forall digit (c_digits c) /\ c_digits c <> []) cs ->
  to_duration to (flat_map spelling cs) = Some (Return v) ->
  v = total to cs.
Proof.
  intros Hcs H.
  rewrite (to_duration_fuel to _ (length cs) _
             (loop_add_components to cs 0 (length cs) Hcs (le_n _))) in H.
  injection H as H. now apply add_components_total in H.
Qed.

(** X10. Several components at two resolutions. For a text of the documented
    format that parses at a fine target R1 and at a coarse target R2, the
    coarse result times the number of R1 ticks per R2 tick differs from the
    fine result by less than one R2 tick per component: each component is
    truncated on its own, and that is all that is lost. *)
Theorem coarser_result_error (R1 R2 : Duration) (cs : list component)
  (v1 v2 : rep) :
  finer_or_equal R1 R2 ->
  Forall (fun c => Forall digit (c_digits c) /\ c_digits c <> []) cs ->
  to_duration R1 (flat_map spelling cs) = Some (Return v1) ->
  to_duration R2 (flat_map spelling cs) = Some (Return v2) ->
  Z.abs (v1 - ticks_per R2 R1 * v2) <=
  (ticks_per R2 R1 - 1) * Z.of_nat (length cs).
Proof.
  intros Hfine Hcs H1 H2.
  apply to_duration_documented in H1, H2; try assumption. subst v1 v2.
  now apply total_coarsen_error.
Qed.

Lemma coarser_result_error_witness :
  Z.abs (1000 - ticks_per seconds milliseconds * 0) <=
  (ticks_per seconds milliseconds - 1) * Z.of_nat 2.
Proof.
  exact (coarser_result_error milliseconds seconds
           [ {| c_sign := NoSign; c_digits := chars "500"; c_unit := milliseconds |};
             {| c_sign := NoSign; c_digits := chars "500"; c_unit := milliseconds |} ]
           1000 0 eq_refl
           ltac:(repeat constructor; discriminate) eq_refl eq_refl).
Defined.
